(** * ZenMind (daily-stories): local store, habit tracker and offline cache proxy

    A shallow embedding of
    - [src/types.ts]            (the [Note] and [Habit] records),
    - [src/services/db.ts]      (class [LocalDatabase], over a model of IndexedDB),
    - [src/App.tsx]             (the habit handlers [createHabit], [handleToggleHabit]),
    - the service worker        (the [install], [activate] and [fetch] listeners),
    followed by the properties of the specification stated over these
    definitions.

    Conventions.  A JavaScript [string] is a [string]; a [number] is a [Z]
    (array lengths are injected with [Z.of_nat]); an array is a [list]; a
    promise is its settled result: a rejected promise is an error value, and
    every [await] is executed to completion before the next statement, since
    the operations are issued one after the other. *)

From Stdlib Require Import ZArith.
From stdpp Require Import gmap strings list fin_maps option.
From stdpp Require Import sorting.

Local Open Scope string_scope.
Local Open Scope list_scope.

(* ===================================================================== *)
(** * src/types.ts *)
(* ===================================================================== *)

Module Note.
Record t : Type := mk
  { id : string;
    title : string;
    content : string;
    createdAt : Z;
    synced : bool }.
End Note.

Module Habit.
Record t : Type := mk
  { id : string;
    name : string;
    completedDays : list string; (* ISO dates *)
    streak : Z }.
End Habit.

(** What the object stores hold.  [put] takes [data: any]; the two shapes the
    program ever writes are notes and habits. *)
Inductive Data : Type :=
  | DNote (n : Note.t)
  | DHabit (h : Habit.t).

(** Both object stores are created with [{ keyPath: 'id' }]: the key of a
    record is its [id] field. *)
Definition keyPath_id (d : Data) : string :=
  match d with
  | DNote n => Note.id n
  | DHabit h => Habit.id h
  end.

(* ===================================================================== *)
(** * A model of the IndexedDB engine, as far as db.ts uses it *)
(* ===================================================================== *)

Module IDB.

(** An open connection, the object [indexedDB.open] hands to [onsuccess].
    Every successful open request creates a connection of its own; [conn]
    is its identity. *)
Record IDBDatabase : Type := { conn : nat }.

(** The database named [DB_NAME] of this origin: its version (0 when it
    does not exist yet), its object stores, each a keyed mapping from the
    key to the record, and the number of connections opened so far. *)
Record Engine : Type :=
  { version : nat;
    objectStores : gmap string (gmap string Data);
    opened : nat }.

Definition fresh : Engine :=
  {| version := 0; objectStores := ∅; opened := 0 |}.

(** What the engine may refuse, chosen by the environment for one
    operation: [open_error] makes the open request fire [onerror] with the
    named [DOMException] (storage disabled, quota, private browsing);
    [request_error] does the same for the request on the object store. *)
Record Faults : Type :=
  { open_error : option string;
    request_error : option string }.

Definition no_faults : Faults :=
  {| open_error := None; request_error := None |}.

Inductive Error : Type :=
  | DOMException (name : string)
  (** [this.db!.transaction] evaluated while [this.db] is [null]. *)
  | TypeError_db_is_null.

Definition contains (name : string) (stores : gmap string (gmap string Data)) : bool :=
  bool_decide (is_Some (stores !! name)).

Definition createObjectStore (name : string)
    (stores : gmap string (gmap string Data)) : gmap string (gmap string Data) :=
  <[name := ∅]> stores.

(** [store.getAll()]: every record of the store.  The engine lists them by
    ascending key; the order is not modelled, and nothing below depends on
    it. *)
Definition store_getAll (store : gmap string Data) : list Data :=
  (map_to_list store).*2.

(** [store.put(data)]: insert or replace under the record's key. *)
Definition store_put (data : Data) (store : gmap string Data) : gmap string Data :=
  <[keyPath_id data := data]> store.

(** [store.delete(id)]: remove the key; nothing happens when it is absent. *)
Definition store_delete (id : string) (store : gmap string Data) : gmap string Data :=
  delete id store.

End IDB.
Import IDB.

(* ===================================================================== *)
(** * src/services/db.ts *)
(* ===================================================================== *)

Definition DB_NAME : string := "ZenMindDB".
Definition DB_VERSION : nat := 1.

(** The state the methods of [LocalDatabase] run in: the private field
    [this.db] of the one instance [dbService], and the engine behind it. *)
Record World : Type :=
  { this_db : option IDBDatabase;
    engine : Engine }.

Definition World_initial : World :=
  {| this_db := None; engine := IDB.fresh |}.

(** A promise-returning method: from a world to a settled promise
    ([inl] rejected, [inr] fulfilled) and the world it leaves. *)
Definition M (A : Type) : Type := World → (Error + A) * World.

#[global] Instance M_ret : MRet M := λ A a w, (inr a, w).
#[global] Instance M_bind : MBind M := λ A B k m w,
  match m w with
  | (inl e, w') => (inl e, w')
  | (inr a, w') => k a w'
  end.

Definition reject {A : Type} (e : Error) : M A := λ w, (inl e, w).
Definition read_db : M (option IDBDatabase) := λ w, (inr (this_db w), w).
Definition read_engine : M Engine := λ w, (inr (engine w), w).
Definition write_db (h : IDBDatabase) : M unit :=
  λ w, (inr (), {| this_db := Some h; engine := engine w |}).
Definition write_engine (e : Engine) : M unit :=
  λ w, (inr (), {| this_db := this_db w; engine := e |}).

Module LocalDatabase.

(** [request.onupgradeneeded] of [init]. *)
Definition onupgradeneeded (stores : gmap string (gmap string Data))
    : gmap string (gmap string Data) :=
  let stores :=
    if negb (contains "notes" stores) then createObjectStore "notes" stores else stores in
  let stores :=
    if negb (contains "habits" stores) then createObjectStore "habits" stores else stores in
  stores.

(** [indexedDB.open(DB_NAME, DB_VERSION)] with the three handlers of
    [init]: [onerror] rejects; a database older than [DB_VERSION] is
    upgraded first; a newer one is a [VersionError]; [onsuccess] assigns the
    new connection to [this.db] and resolves. *)
Definition init (f : Faults) : M unit :=
  match open_error f with
  | Some e => reject (DOMException e)
  | None =>
      e ← read_engine;
      if decide (DB_VERSION < version e)%nat then reject (DOMException "VersionError")
      else
        let stores :=
          if decide (version e < DB_VERSION)%nat
          then onupgradeneeded (objectStores e) else objectStores e in
        write_engine {| version := DB_VERSION; objectStores := stores;
                        opened := S (opened e) |};;
        write_db {| conn := opened e |}
  end.

(** [this.db!.transaction(storeName, mode).objectStore(storeName)]: a
    [TypeError] when [this.db] is [null], a [NotFoundError] when the
    database has no such store. *)
Definition transaction (storeName : string) : M (gmap string Data) :=
  db ← read_db;
  match db with
  | None => reject TypeError_db_is_null
  | Some _ =>
      e ← read_engine;
      match objectStores e !! storeName with
      | None => reject (DOMException "NotFoundError")
      | Some store => mret store
      end
  end.

(** Commit of a [readwrite] transaction on [storeName]. *)
Definition commit (storeName : string) (store : gmap string Data) : M unit :=
  e ← read_engine;
  write_engine {| version := version e;
                  objectStores := <[storeName := store]> (objectStores e);
                  opened := opened e |}.

Definition getAll (storeName : string) (f : Faults) : M (list Data) :=
  db ← read_db;
  (if db is None then init f else mret ());;
  store ← transaction storeName;
  match request_error f with
  | Some e => reject (DOMException e)
  | None => mret (store_getAll store)
  end.

Definition put (storeName : string) (data : Data) (f : Faults) : M unit :=
  db ← read_db;
  (if db is None then init f else mret ());;
  store ← transaction storeName;
  match request_error f with
  | Some e => reject (DOMException e)
  | None => commit storeName (store_put data store)
  end.

Definition delete (storeName : string) (id : string) (f : Faults) : M unit :=
  db ← read_db;
  (if db is None then init f else mret ());;
  store ← transaction storeName;
  match request_error f with
  | Some e => reject (DOMException e)
  | None => commit storeName (store_delete id store)
  end.

Definition getAllNotes (f : Faults) : M (list Data) := getAll "notes" f.
Definition saveNote (note : Note.t) (f : Faults) : M unit := put "notes" (DNote note) f.
Definition deleteNote (id : string) (f : Faults) : M unit := delete "notes" id f.
Definition getAllHabits (f : Faults) : M (list Data) := getAll "habits" f.
Definition saveHabit (habit : Habit.t) (f : Faults) : M unit := put "habits" (DHabit habit) f.

End LocalDatabase.

(* ===================================================================== *)
(** * src/App.tsx: the habit handlers *)
(* ===================================================================== *)

Module App.

(** The array the [map] callback of [handleToggleHabit] computes for the
    habit it toggles: [today] is removed when present, appended when
    absent. *)
Definition nextDays (today : string) (completedDays : list string) : list string :=
  let completed := bool_decide (today ∈ completedDays) in
  if completed
  then filter (λ d, d ≠ today) completedDays
  else completedDays ++ [today].

(** [{ ...h, completedDays: nextDays, streak: nextDays.length }] *)
Definition toggled (today : string) (h : Habit.t) : Habit.t :=
  let nextDays := nextDays today (Habit.completedDays h) in
  {| Habit.id := Habit.id h;
     Habit.name := Habit.name h;
     Habit.completedDays := nextDays;
     Habit.streak := Z.of_nat (length nextDays) |}.

Definition newHabits (habits : list Habit.t) (habitId today : string) : list Habit.t :=
  (λ h, if decide (Habit.id h = habitId) then toggled today h else h) <$> habits.

(** [handleToggleHabit(habitId)], run with the state variable [habits] it
    closes over and with [today], the day [new Date()] reports.  The result
    is the array handed to [setHabits]; when [saveHabit] rejects, the
    handler stops at the [await] and [setHabits] is not reached. *)
Definition handleToggleHabit (habits : list Habit.t) (habitId today : string)
    (f : Faults) : M (list Habit.t) :=
  let newHabits := newHabits habits habitId today in
  let updated := List.find (λ h, bool_decide (Habit.id h = habitId)) newHabits in
  (if updated is Some updated then LocalDatabase.saveHabit updated f else mret ());;
  mret newHabits.

(** [createHabit()], with the answer of [prompt] ([None] for [null]) and
    the identifier [crypto.randomUUID()] returns.  An empty or missing name
    returns before anything is written. *)
Definition createHabit (habits : list Habit.t) (name : option string) (uuid : string)
    (f : Faults) : M (list Habit.t) :=
  match name with
  | None => mret habits
  | Some name =>
      if decide (name = "") then mret habits
      else
        let habit :=
          {| Habit.id := uuid; Habit.name := name;
             Habit.completedDays := []; Habit.streak := 0 |} in
        LocalDatabase.saveHabit habit f;;
        mret (habits ++ [habit])
  end.

(** The habits among the records [getAllHabits] resolves with, which
    [loadData] hands to [setHabits]. *)
Definition fetchedHabits (ds : list Data) : list Habit.t :=
  omap (λ d, match d with DHabit h => Some h | DNote _ => None end) ds.

(** What [loadData] does to the habit list: open the database, read both
    collections, keep the habits. *)
Definition loadData (f : Faults) : M (list Habit.t) :=
  LocalDatabase.init f;;
  _ ← LocalDatabase.getAllNotes f;
  hs ← LocalDatabase.getAllHabits f;
  mret (fetchedHabits hs).

(** The component state the habit handlers read and write, next to the
    store. *)
Record State : Type :=
  { habits : list Habit.t;
    world : World }.

Definition State_initial : State :=
  {| habits := []; world := World_initial |}.

(** Run a handler: a fulfilled handler has called [setHabits] with its
    result, a rejected one has left the list as it was. *)
Definition run (handler : list Habit.t → M (list Habit.t)) (st : State) : State :=
  match handler (habits st) (world st) with
  | (inr hs, w) => {| habits := hs; world := w |}
  | (inl _, w) => {| habits := habits st; world := w |}
  end.

(** A page (re)load: the component state and the connection are gone, the
    database stays. *)
Definition reload (st : State) : State :=
  {| habits := [];
     world := {| this_db := None; engine := engine (world st) |} |}.

Inductive step : State → State → Prop :=
  | step_createHabit st name uuid f :
      step st (run (λ hs, createHabit hs name uuid f) st)
  | step_handleToggleHabit st habitId today f :
      step st (run (λ hs, handleToggleHabit hs habitId today f) st)
  | step_loadData st f :
      step st (run (λ _, loadData f) st)
  | step_reload st :
      step st (reload st).

Definition reachable : State → Prop := rtc step State_initial.

End App.

(* ===================================================================== *)
(** * The service worker *)
(* ===================================================================== *)

(** [String.prototype.includes]. *)
Fixpoint includes (searchString s : string) : bool :=
  String.prefix searchString s ||
  match s with
  | EmptyString => false
  | String _ s' => includes searchString s'
  end.

Module SW.

Definition CACHE_NAME : string := "zenmind-v1".
Definition ASSETS_TO_CACHE : list string :=
  [ "/";
    "/index.html";
    "/manifest.json";
    "https://cdn.tailwindcss.com";
    "https://fonts.googleapis.com/css2?family=Inter:wght@300;400;500;600;700&display=swap" ].

Record Request : Type :=
  { url : string;
    method : string;
    mode : string }.

(** A response: its status, its body, and whether it carries a [Vary]
    header that names [*]. *)
Record Response : Type :=
  { status : nat;
    body : string;
    vary_any : bool }.

(** [Response.ok] *)
Definition ok (r : Response) : bool :=
  bool_decide (200 ≤ status r ≤ 299)%nat.

(** A request made from a URL string, as [caches.match('/index.html')] and
    [cache.addAll] make them. *)
Definition Request_of (u : string) : Request :=
  {| url := u; method := "GET"; mode := "cors" |}.

(** The URL without its fragment, which starts at the first [#] (code unit
    35): the cache compares the URLs of requests with the fragment left
    out. *)
Fixpoint without_fragment (u : string) : string :=
  match u with
  | EmptyString => EmptyString
  | String c u' =>
      if (Ascii.nat_of_ascii c =? 35)%nat
      then EmptyString
      else String c (without_fragment u')
  end.

(** The cache storage of the origin: the named caches in creation order,
    each keyed by request URL without its fragment, so that a cache holds at
    most one response for the requests it takes for the same.  A URL of the
    origin of the worker is written as its path. *)
Definition CacheStorage : Type := list (string * gmap string Response).

(** The network: [None] when [fetch] rejects. *)
Definition Network : Type := Request → option Response.

(** [cache.match(request)]: only [GET] requests match. *)
Definition cache_match (request : Request) (cache : gmap string Response)
    : option Response :=
  if decide (method request = "GET")
  then cache !! without_fragment (url request) else None.

(** [caches.match(request)]: the first cache, in creation order, that has a
    match. *)
Definition caches_match (request : Request) (caches : CacheStorage) : option Response :=
  head (omap (λ nc, cache_match request nc.2) caches).

Definition caches_has (cacheName : string) (caches : CacheStorage) : bool :=
  bool_decide (cacheName ∈ caches.*1).

(** [caches.open(cacheName)] creates the cache when there is none. *)
Definition caches_open (cacheName : string) (caches : CacheStorage) : CacheStorage :=
  if caches_has cacheName caches then caches else caches ++ [(cacheName, ∅)].

(** The URLs the cache accepts: [http] and [https] ones.  A URL written
    without a scheme is a path on the origin of the worker, which is one of
    the two. *)
Definition http_url (u : string) : bool :=
  String.prefix "http://" u || String.prefix "https://" u || String.prefix "/" u.

(** What [cache.put] takes: it rejects, and stores nothing, for a request
    whose URL is not an [http(s)] one or whose method is not [GET], for a
    partial answer (status 206) and for an answer with [Vary: *]. *)
Definition put_accepted (request : Request) (response : Response) : bool :=
  http_url (url request)
  && bool_decide (method request = "GET")
  && negb (status response =? 206)%nat
  && negb (vary_any response).

(** What [cache.addAll] takes of a fetched asset: a status in 200..299 other
    than 206, and no [Vary: *]. *)
Definition addAll_accepted (response : Response) : bool :=
  ok response && negb (status response =? 206)%nat && negb (vary_any response).

(** [cache.put(request, response)] on the cache [cacheName]; a put the cache
    rejects leaves the storage as it is. *)
Definition cache_put (cacheName : string) (request : Request) (response : Response)
    (caches : CacheStorage) : CacheStorage :=
  if put_accepted request response
  then (λ nc, if decide (nc.1 = cacheName)
              then (nc.1, <[without_fragment (url request) := response]> nc.2)
              else nc) <$> caches
  else caches.

(** [caches.delete(cacheName)] *)
Definition caches_delete (cacheName : string) (caches : CacheStorage) : CacheStorage :=
  filter (λ nc, nc.1 ≠ cacheName) caches.

(** [caches.keys()] *)
Definition caches_keys (caches : CacheStorage) : list string := caches.*1.

(** The entry of the cache [cacheName] under the key [u]. *)
Definition entry (cacheName u : string) (caches : CacheStorage) : option Response :=
  head (omap (λ nc, if decide (nc.1 = cacheName) then nc.2 !! u else None) caches).

(** A promise over the cache storage: [None] is a rejection. *)
Definition P (A : Type) : Type := CacheStorage → option A * CacheStorage.

#[global] Instance P_ret : MRet P := λ A a cs, (Some a, cs).
#[global] Instance P_bind : MBind P := λ A B k p cs,
  match p cs with
  | (Some a, cs') => k a cs'
  | (None, cs') => (None, cs')
  end.

(** [p.catch(handler)] *)
Definition catch {A : Type} (p : P A) (handler : P A) : P A := λ cs,
  match p cs with
  | (Some a, cs') => (Some a, cs')
  | (None, cs') => handler cs'
  end.

Definition rejected {A : Type} : P A := λ cs, (None, cs).
Definition read {A : Type} (g : CacheStorage → A) : P A := λ cs, (Some (g cs), cs).
Definition update (g : CacheStorage → CacheStorage) : P unit := λ cs, (Some (), g cs).

Definition fetch (net : Network) (request : Request) : P Response :=
  match net request with
  | Some r => mret r
  | None => rejected
  end.

(** The [install] listener: [cache.addAll] fetches every asset and stores
    them all, or rejects and stores none when a fetch fails or answers with
    something it does not take. *)
Definition install (net : Network) : P unit :=
  update (caches_open CACHE_NAME);;
  let fetched := (λ u, (Request_of u, net (Request_of u))) <$> ASSETS_TO_CACHE in
  if forallb (λ rr, if rr.2 is Some r then addAll_accepted r else false) fetched
  then update (λ cs,
         foldl (λ cs rr, if rr.2 is Some r then cache_put CACHE_NAME rr.1 r cs else cs)
               cs fetched)
  else rejected.

(** The [activate] listener. *)
Definition activate : P unit :=
  cacheNames ← read caches_keys;
  update (λ cs,
    foldl (λ cs cacheName,
             if decide (cacheName ≠ CACHE_NAME) then caches_delete cacheName cs else cs)
          cs cacheNames).

(** What the page that issued the request gets. *)
Inductive Outcome : Type :=
  (** the listener returned without [respondWith]: the browser performs
      the request itself *)
  | NotIntercepted
  | Responded (r : Response)
  (** [respondWith] was given a promise that rejected or that resolved with
      something that is not a [Response] *)
  | NetworkError.

Definition respondWith (p : P (option Response)) (caches : CacheStorage)
    : Outcome * CacheStorage :=
  match p caches with
  | (Some (Some r), caches') => (Responded r, caches')
  | (_, caches') => (NetworkError, caches')
  end.

(** The [fetch] listener. *)
Definition on_fetch (net : Network) (request : Request) (caches : CacheStorage)
    : Outcome * CacheStorage :=
  (* Check if it's an API request (like Gemini) *)
  if includes "generativelanguage.googleapis.com" (url request)
  then (NotIntercepted, caches) (* Let network handle API *)
  else
    respondWith
      (catch
         (response ← read (caches_match request);
          match response with
          | Some response => mret (Some response)
          | None =>
              fetchResponse ← fetch net request;
              update (caches_open CACHE_NAME);;
              (* Cache new static assets *)
              (if bool_decide (method request = "GET")
                  && negb (includes "chrome-extension" (url request))
               then update (cache_put CACHE_NAME request fetchResponse)
               else mret ());;
              mret (Some fetchResponse)
          end)
         (* Fallback if both cache and network fail (offline) *)
         (if decide (mode request = "navigate")
          then read (caches_match (Request_of "/index.html"))
          else mret None))
      caches.

End SW.

(* ===================================================================== *)
(** * src/App.tsx: the note handlers and [loadData] *)
(* ===================================================================== *)

(** The white space [String.prototype.trim] strips, among the characters a
    [string] holds here (code units below 256): tab, line feed, vertical
    tab, form feed, carriage return, space and no-break space. *)
Definition isWhiteSpace (a : Ascii.ascii) : bool :=
  existsb (Nat.eqb (Ascii.nat_of_ascii a)) [9; 10; 11; 12; 13; 32; 160]%nat.

Fixpoint trimStart (s : string) : string :=
  match s with
  | EmptyString => EmptyString
  | String a s' => if isWhiteSpace a then trimStart s' else s
  end.

Definition trimEnd (s : string) : string :=
  String.rev (trimStart (String.rev s)).

(** [String.prototype.trim] *)
Definition trim (s : string) : string := trimEnd (trimStart s).

(** [Array.prototype.sort(compareFn)]: the sort is stable, and [a] is put
    before [b] when [compareFn(a, b) <= 0]. *)
Fixpoint sort_insert {A : Type} (compareFn : A → A → Z) (a : A) (l : list A) : list A :=
  match l with
  | [] => [a]
  | b :: l' =>
      if decide (compareFn a b ≤ 0)%Z then a :: l
      else b :: sort_insert compareFn a l'
  end.

Definition Array_sort {A : Type} (compareFn : A → A → Z) (l : list A) : list A :=
  foldr (sort_insert compareFn) [] l.

Module Notes.

(** The state variables of the component the note handlers read and
    write. *)
Record State : Type :=
  { notes : list Note.t;
    newNoteTitle : string;
    newNoteContent : string;
    isOnline : bool }.

(** [handleAddNote(e)], with the identifier [crypto.randomUUID()] returns
    and the time [Date.now()] reports.  The result is the state after the
    three setters; a title that is empty once trimmed returns before anything
    is written, and a rejected [saveNote] stops the handler at the [await]. *)
Definition handleAddNote (st : State) (uuid : string) (now : Z) (f : Faults) : M State :=
  if decide (trim (newNoteTitle st) = "") then mret st
  else
    let note :=
      {| Note.id := uuid;
         Note.title := newNoteTitle st;
         Note.content := newNoteContent st;
         Note.createdAt := now;
         Note.synced := isOnline st |} in
    LocalDatabase.saveNote note f;;
    mret {| notes := note :: notes st;
            newNoteTitle := "";
            newNoteContent := "";
            isOnline := isOnline st |}.

(** [handleDeleteNote(id)] *)
Definition handleDeleteNote (st : State) (id : string) (f : Faults) : M State :=
  LocalDatabase.deleteNote id f;;
  mret {| notes := filter (λ n, Note.id n ≠ id) (notes st);
          newNoteTitle := newNoteTitle st;
          newNoteContent := newNoteContent st;
          isOnline := isOnline st |}.

(** The notes among the records [getAllNotes] resolves with. *)
Definition fetchedNotes (ds : list Data) : list Note.t :=
  omap (λ d, match d with DNote n => Some n | DHabit _ => None end) ds.

(** [loadData()]: the arrays handed to [setNotes] and to [setHabits].  The
    two reads of [Promise.all] are issued in the order of the array. *)
Definition loadData (f : Faults) : M (list Note.t * list Habit.t) :=
  LocalDatabase.init f;;
  fetchedNotes ← LocalDatabase.getAllNotes f;
  fetchedHabits ← LocalDatabase.getAllHabits f;
  mret (Array_sort (λ a b, Note.createdAt b - Note.createdAt a)%Z
          (Notes.fetchedNotes fetchedNotes),
        App.fetchedHabits fetchedHabits).

End Notes.

(* ===================================================================== *)
(** * Vocabulary of the properties *)
(* ===================================================================== *)

(** The two collections [onupgradeneeded] creates. *)
Definition collections : list string := ["notes"; "habits"].

(** The records of a collection; a store that does not exist has none. *)
Definition store_of (c : string) (w : World) : gmap string Data :=
  default ∅ (objectStores (engine w) !! c).

(** What holds of every world the program produces: the database is never
    newer than [DB_VERSION], a connection exists only once the database has
    reached [DB_VERSION], at [DB_VERSION] both collections exist, and every
    record sits under the key its [id] field gives. *)
Record wf (w : World) : Prop :=
  { wf_version : (version (engine w) ≤ DB_VERSION)%nat;
    wf_open : is_Some (this_db w) → version (engine w) = DB_VERSION;
    wf_stores : version (engine w) = DB_VERSION →
                ∀ c, c ∈ collections → is_Some (objectStores (engine w) !! c);
    wf_keys : ∀ c k d, store_of c w !! k = Some d → keyPath_id d = k }.

(** The first statement of [getAll], [put] and [delete]:
    [if (!this.db) await this.init();] *)
Definition lazy_init (f : Faults) : M unit :=
  db ← read_db;
  if db is None then LocalDatabase.init f else mret ().

(** The world after a transaction on [c] committed [store]. *)
Definition committed (c : string) (store : gmap string Data) (w : World) : World :=
  {| this_db := this_db w;
     engine := {| version := version (engine w);
                  objectStores := <[c := store]> (objectStores (engine w));
                  opened := opened (engine w) |} |}.

(** The public operations of the store. *)
Inductive Operation : Type :=
  | ListAll (c : string)
  | Put (c : string) (record : Data)
  | Delete (c : string) (id : string).

Definition rejection {A : Type} (r : Error + A) : option Error :=
  if r is inl e then Some e else None.

(** The rejection of an operation, if it rejects, and the world it leaves. *)
Definition perform (op : Operation) (f : Faults) (w : World) : option Error * World :=
  match op with
  | ListAll c => prod_map rejection id (LocalDatabase.getAll c f w)
  | Put c record => prod_map rejection id (LocalDatabase.put c record f w)
  | Delete c i => prod_map rejection id (LocalDatabase.delete c i f w)
  end.

(** [streak] is the number of entries of [completedDays]. *)
Definition streak_ok (h : Habit.t) : Prop :=
  Habit.streak h = Z.of_nat (length (Habit.completedDays h)).

(** Every record of the [habits] collection is a habit with its derived
    [streak]. *)
Definition stored_habits_ok (w : World) : Prop :=
  ∀ k d, store_of "habits" w !! k = Some d → ∃ h, d = DHabit h ∧ streak_ok h.

(** The invariant of the habit handlers: every habit of the list and of the
    [habits] collection has its derived [streak]. *)
Record habits_inv (st : App.State) : Prop :=
  { inv_wf : wf (App.world st);
    inv_list : ∀ h, h ∈ App.habits st → streak_ok h;
    inv_stored : stored_habits_ok (App.world st) }.

(** The cache storages the worker answers requests from: the one a
    successful [install] followed by [activate] leaves, whatever the
    storage held before, and the ones the [fetch] listener leaves after
    it. *)
Inductive serving : SW.CacheStorage → Prop :=
  | serving_activated net caches caches' :
      SW.install net caches = (Some (), caches') →
      serving (SW.activate caches').2
  | serving_fetch net request caches :
      serving caches →
      serving (SW.on_fetch net request caches).2.

(* ===================================================================== *)
(** * Sample data *)
(* ===================================================================== *)

(** The world after the first [init] of a fresh origin. *)
Definition World_opened : World :=
  {| this_db := Some {| conn := 0 |};
     engine := {| version := 1;
                  objectStores := {[ "habits" := ∅; "notes" := ∅ ]};
                  opened := 1 |} |}.

(** The note of the scenario of the specification. *)
Definition note_a : Note.t :=
  {| Note.id := "a"; Note.title := "T"; Note.content := "C";
     Note.createdAt := 1000; Note.synced := true |}.

(** A habit completed on two days, the earlier one first. *)
Definition habit_two_days : Habit.t :=
  {| Habit.id := "h1"; Habit.name := "Read";
     Habit.completedDays := ["2024-05-01"; "2024-05-02"];
     Habit.streak := 2 |}.

(** The component showing that habit over a fresh origin. *)
Definition State_two_days : App.State :=
  {| App.habits := [habit_two_days]; App.world := World_initial |}.

(** A first session: a habit is created, then completed for a day. *)
Definition State_session : App.State :=
  App.run (λ hs, App.handleToggleHabit hs "u1" "2024-05-01" no_faults)
    (App.run (λ hs, App.createHabit hs (Some "Read") "u1" no_faults)
       App.State_initial).

(** Three networks: one that answers every request with its URL as the
    body, one that answers every request with [404 Not Found], and none. *)
Definition net_online : SW.Network :=
  λ request, Some {| SW.status := 200; SW.body := SW.url request; SW.vary_any := false |}.
Definition net_not_found : SW.Network :=
  λ _, Some {| SW.status := 404; SW.body := "Not Found"; SW.vary_any := false |}.
Definition net_offline : SW.Network := λ _, None.

(** The cache storage once the worker has been installed and activated. *)
Definition caches_active : SW.CacheStorage :=
  (SW.activate (SW.install net_online []).2).2.

(* ===================================================================== *)
(** * Vocabulary of the further properties *)
(* ===================================================================== *)

(** The collection an operation works on. *)
Definition collection_of (op : Operation) : string :=
  match op with
  | ListAll c | Put c _ | Delete c _ => c
  end.

(** A world whose [habits] collection holds one habit. *)
Definition World_one_habit : World :=
  committed "habits" {[ "h1" := DHabit habit_two_days ]} World_opened.

(** A string of white space only: what [!s.trim()] tests. *)
Fixpoint blank (s : string) : bool :=
  match s with
  | EmptyString => true
  | String a s' => isWhiteSpace a && blank s'
  end.

(** Newest first: every note of the list is at least as recent as every
    note after it. *)
Definition newest_first (ns : list Note.t) : Prop :=
  StronglySorted (λ a b, (Note.createdAt b ≤ Note.createdAt a)%Z) ns.

(** Every record of the [notes] collection is a note. *)
Definition stored_notes_ok (w : World) : Prop :=
  ∀ k d, store_of "notes" w !! k = Some d → ∃ n, d = DNote n.

(** The list on the screen and the [notes] collection hold the same notes,
    each once, the collection under the [id] of the note. *)
Definition notes_in_sync (ns : list Note.t) (w : World) : Prop :=
  NoDup (Note.id <$> ns)
  ∧ ∀ k d, store_of "notes" w !! k = Some d
           ↔ ∃ n, n ∈ ns ∧ Note.id n = k ∧ d = DNote n.

(** The form with a title typed in, over an empty list, and the list after
    two notes have been added. *)
Definition Notes_typed : Notes.State :=
  {| Notes.notes := []; Notes.newNoteTitle := " Monday "; Notes.newNoteContent := "Slept well";
     Notes.isOnline := true |}.

Definition note_b : Note.t :=
  {| Note.id := "b"; Note.title := "U"; Note.content := "D";
     Note.createdAt := 2000; Note.synced := false |}.

Definition Notes_two : Notes.State :=
  {| Notes.notes := [note_b; note_a]; Notes.newNoteTitle := "   ";
     Notes.newNoteContent := ""; Notes.isOnline := false |}.

(** A world whose [notes] collection holds those two notes. *)
Definition World_two_notes : World :=
  committed "notes" {[ "a" := DNote note_a; "b" := DNote note_b ]} World_opened.

(** A property of habits that holds of every habit of the list and of every
    record of the [habits] collection, which holds habits only. *)
Definition habits_all (P : Habit.t → Prop) (st : App.State) : Prop :=
  wf (App.world st)
  ∧ (∀ h, h ∈ App.habits st → P h)
  ∧ (∀ k d, store_of "habits" (App.world st) !! k = Some d → ∃ h, d = DHabit h ∧ P h).

(** The number of distinct days a habit was completed on. *)
Definition distinct_days (h : Habit.t) : nat :=
  size (list_to_set (Habit.completedDays h) : gset string).

(** No cache holds a response under a URL of the insight-generation host. *)
Definition api_free (caches : SW.CacheStorage) : Prop :=
  ∀ nc u r, nc ∈ caches → nc.2 !! u = Some r →
            includes "generativelanguage.googleapis.com" u = false.

(** A cache storage left by an older version of the worker. *)
Definition caches_old : SW.CacheStorage :=
  [("zenmind-v0", {[ "/index.html" := {| SW.status := 200; SW.body := "old shell"; SW.vary_any := false |} ]})].

(** A network on which only the stylesheet host is unreachable. *)
Definition net_no_cdn : SW.Network :=
  λ request, if decide (SW.url request = "https://cdn.tailwindcss.com") then None
             else Some {| SW.status := 200; SW.body := SW.url request; SW.vary_any := false |}.

(* ===================================================================== *)
(** * The local store: invariant and operation lemmas *)
(* ===================================================================== *)

Section LocalStore.

Import LocalDatabase.

Lemma wf_initial : wf World_initial.
Proof.
  split; simpl; [lia | intros [? [=]] | intros [=] |].
  intros c k d. unfold store_of; simpl. by rewrite lookup_empty.
Qed.

Lemma contains_spec name stores :
  contains name stores = true ↔ is_Some (stores !! name).
Proof. unfold contains. by rewrite bool_decide_eq_true. Qed.

Lemma onupgradeneeded_lookup c stores :
  default ∅ (onupgradeneeded stores !! c) = default ∅ (stores !! c).
Proof.
  unfold onupgradeneeded, createObjectStore.
  assert (Hins : ∀ (n : string) (s : gmap string (gmap string Data)),
             default ∅ ((if negb (contains n s) then <[n:=∅]> s else s) !! c)
             = default ∅ (s !! c)).
  { intros n s. destruct (contains n s) eqn:Hc; simpl; [done|].
    destruct (decide (n = c)) as [->|Hne].
    - rewrite lookup_insert_eq. simpl.
      destruct (s !! c) eqn:Hs; [|done].
      assert (contains c s = true) by (apply contains_spec; eauto). congruence.
    - by rewrite lookup_insert_ne. }
  by rewrite !Hins.
Qed.

Lemma onupgradeneeded_collections c stores :
  c ∈ collections → is_Some (onupgradeneeded stores !! c).
Proof.
  unfold collections. rewrite !elem_of_cons, elem_of_nil.
  unfold onupgradeneeded, createObjectStore.
  intros [->|[->|[]]].
  - destruct (contains "notes" stores) eqn:Hn; simpl.
    + apply contains_spec in Hn.
      destruct (contains "habits" stores); simpl; [done|].
      by rewrite lookup_insert_ne.
    + destruct (contains "habits" _); simpl.
      * rewrite lookup_insert_eq; eauto.
      * rewrite lookup_insert_ne by done. rewrite lookup_insert_eq; eauto.
  - match goal with |- context [contains "habits" ?s] =>
      destruct (contains "habits" s) eqn:Hh end; simpl.
    + by apply contains_spec in Hh.
    + rewrite lookup_insert_eq; eauto.
Qed.

(** However [init] settles, no record of any collection changes. *)
Lemma init_store_of f w r w' c :
  init f w = (r, w') → store_of c w' = store_of c w.
Proof.
  unfold init. destruct (open_error f); [by intros [= _ <-]|].
  unfold mbind, M_bind, read_engine, write_engine, write_db, reject; simpl.
  destruct (decide _); [by intros [= _ <-]|].
  intros [= _ <-]. unfold store_of; simpl.
  destruct (decide _); [apply onupgradeneeded_lookup | done].
Qed.

(** A rejected [init] changes nothing at all. *)
Lemma init_rejected f w e w' :
  init f w = (inl e, w') → w' = w.
Proof.
  unfold init. destruct (open_error f); [by intros [= _ <-]|].
  unfold mbind, M_bind, read_engine, write_engine, write_db, reject; simpl.
  destruct (decide _); [by intros [= _ <-] | by intros [=]].
Qed.

(** A successful open: the connection is new, the database is at
    [DB_VERSION], and its object stores are the ones it had unless it has
    just been created. *)
Lemma init_resolves f w :
  wf w → open_error f = None →
  ∃ w', init f w = (inr (), w')
        ∧ wf w'
        ∧ this_db w' = Some {| conn := opened (engine w) |}
        ∧ (version (engine w) = DB_VERSION →
           engine w' = {| version := version (engine w);
                          objectStores := objectStores (engine w);
                          opened := S (opened (engine w)) |}).
Proof.
  intros Hwf Hf.
  destruct (init f w) as [r w'] eqn:Hi.
  pose proof (λ c, init_store_of f w r w' c Hi) as Hst.
  destruct Hwf as [Hv Ho Hs Hk].
  revert Hi. unfold init. rewrite Hf.
  destruct w as [db [v stores n]]; simpl in *.
  unfold mbind, M_bind, read_engine, write_engine, write_db; simpl.
  destruct (decide (DB_VERSION < v)%nat) as [Hlt|_]; [lia|].
  intros [= <- <-]. eexists; split; [reflexivity|].
  split_and!; simpl; try done.
  - split; simpl; try done.
    + intros _ c Hc. destruct (decide _); [by apply onupgradeneeded_collections|].
      apply Hs; [lia | done].
    + intros c k d. rewrite Hst. apply Hk.
  - intros ->. destruct (decide _) as [Hlt|_]; [unfold DB_VERSION in Hlt; lia | done].
Qed.

Lemma init_wf f w r w' :
  wf w → init f w = (r, w') → wf w'.
Proof.
  intros Hwf Hi. destruct r as [e|[]].
  - by rewrite (init_rejected _ _ _ _ Hi).
  - destruct (open_error f) as [e|] eqn:Hf.
    + unfold init in Hi. by rewrite Hf in Hi.
    + destruct (init_resolves f w Hwf Hf) as (w1 & Hi1 & Hwf1 & _). congruence.
Qed.

Lemma lazy_init_open f w :
  is_Some (this_db w) → lazy_init f w = (inr (), w).
Proof. intros [h Hh]. unfold lazy_init, mbind, M_bind, read_db. by rewrite Hh. Qed.

Lemma lazy_init_closed f w :
  this_db w = None → lazy_init f w = init f w.
Proof. intros Hh. unfold lazy_init, mbind, M_bind, read_db. by rewrite Hh. Qed.

Lemma lazy_init_store_of f w r w' c :
  lazy_init f w = (r, w') → store_of c w' = store_of c w.
Proof.
  destruct (this_db w) as [h|] eqn:Hdb.
  - rewrite lazy_init_open by (rewrite Hdb; eauto). by intros [= _ <-].
  - rewrite lazy_init_closed by done. apply init_store_of.
Qed.

Lemma lazy_init_wf f w r w' :
  wf w → lazy_init f w = (r, w') → wf w'.
Proof.
  intros Hwf. destruct (this_db w) as [h|] eqn:Hdb.
  - rewrite lazy_init_open by (rewrite Hdb; eauto). by intros [= _ <-].
  - rewrite lazy_init_closed by done. by apply init_wf.
Qed.

(** A [lazy_init] that resolves never leaves [this.db] null. *)
Lemma lazy_init_is_open f w w' :
  lazy_init f w = (inr (), w') → is_Some (this_db w').
Proof.
  destruct (this_db w) as [h|] eqn:Hdb.
  - rewrite lazy_init_open by (rewrite Hdb; eauto). intros [= <-]. rewrite Hdb; eauto.
  - rewrite lazy_init_closed by done.
    unfold init. destruct (open_error f); [by intros [=]|].
    unfold mbind, M_bind, read_engine, write_engine, write_db, reject; simpl.
    destruct (decide _); [by intros [=]|]. intros [= <-]; simpl; eauto.
Qed.

Lemma lazy_init_resolves f w :
  wf w → (this_db w = None → open_error f = None) →
  ∃ w', lazy_init f w = (inr (), w')
        ∧ wf w' ∧ is_Some (this_db w')
        ∧ (∀ c, store_of c w' = store_of c w)
        ∧ (is_Some (this_db w) → w' = w).
Proof.
  intros Hwf Hf. destruct (this_db w) as [h|] eqn:Hdb.
  - exists w. rewrite lazy_init_open by (rewrite Hdb; eauto).
    split_and!; rewrite ?Hdb; eauto.
  - destruct (init_resolves f w Hwf (Hf eq_refl)) as (w' & Hi & Hwf' & Hdb' & _).
    exists w'. rewrite lazy_init_closed by done.
    split_and!; rewrite ?Hdb'; eauto.
    + intros c. by eapply init_store_of.
    + by intros [? [=]].
Qed.

(** In an open, well-formed world both collections have their store. *)
Lemma wf_store_lookup c w :
  wf w → is_Some (this_db w) → c ∈ collections →
  objectStores (engine w) !! c = Some (store_of c w).
Proof.
  intros Hwf Hdb Hc.
  destruct (wf_stores w Hwf (wf_open w Hwf Hdb) c Hc) as [s Hs].
  unfold store_of. by rewrite Hs.
Qed.

Lemma store_lookup_store_of c w s :
  objectStores (engine w) !! c = Some s → store_of c w = s.
Proof. intros Hs. unfold store_of. by rewrite Hs. Qed.

Lemma store_of_committed c c' store w :
  store_of c' (committed c store w)
  = if decide (c = c') then store else store_of c' w.
Proof.
  unfold store_of, committed; simpl. rewrite lookup_insert.
  by destruct (decide (c = c')).
Qed.

Lemma wf_committed c store w :
  wf w → (∀ k d, store !! k = Some d → keyPath_id d = k) →
  wf (committed c store w).
Proof.
  intros [Hv Ho Hs Hk] Hstore. split; simpl; try done.
  - intros Hver c' Hc'. rewrite lookup_insert. destruct (decide (c = c')); [eauto|].
    by apply Hs.
  - intros c' k d. rewrite store_of_committed.
    destruct (decide (c = c')); [apply Hstore | apply Hk].
Qed.

(** Committing the store a collection already has changes nothing. *)
Lemma committed_same c w s :
  objectStores (engine w) !! c = Some s → committed c s w = w.
Proof.
  intros Hs. unfold committed. rewrite insert_id by done.
  by destruct w as [db [v stores n]].
Qed.

Lemma init_rejects_with f w e :
  open_error f = Some e → init f w = (inl (DOMException e), w).
Proof. intros Hf. unfold init. by rewrite Hf. Qed.

(** [init], and so [lazy_init], never rejects with the null-handle error. *)
Lemma lazy_init_never_null f w w' :
  lazy_init f w ≠ (inl TypeError_db_is_null, w').
Proof.
  destruct (this_db w) as [h|] eqn:Hdb.
  - by rewrite lazy_init_open by (rewrite Hdb; eauto).
  - rewrite lazy_init_closed by done.
    unfold init. destruct (open_error f); [by intros [=]|].
    unfold mbind, M_bind, read_engine, write_engine, write_db, reject; simpl.
    destruct (decide _); by intros [=].
Qed.

(** The three operations, split at their first statement. *)
Lemma getAll_unfold c f w :
  getAll c f w =
  match lazy_init f w with
  | (inl e, w') => (inl e, w')
  | (inr _, w') =>
      match this_db w', objectStores (engine w') !! c, request_error f with
      | None, _, _ => (inl TypeError_db_is_null, w')
      | Some _, None, _ => (inl (DOMException "NotFoundError"), w')
      | Some _, Some _, Some e => (inl (DOMException e), w')
      | Some _, Some store, None => (inr (store_getAll store), w')
      end
  end.
Proof.
  unfold getAll, lazy_init, transaction, mbind, M_bind, mret, M_ret,
    read_db, read_engine, reject; simpl.
  destruct (this_db w) eqn:Hdb; simpl.
  - rewrite Hdb. destruct (objectStores (engine w) !! c); [|done].
    by destruct (request_error f).
  - destruct (init f w) as [[e|[]] w']; [done|].
    destruct (this_db w'); [|done].
    destruct (objectStores (engine w') !! c); [|done].
    by destruct (request_error f).
Qed.

Lemma put_unfold c data f w :
  put c data f w =
  match lazy_init f w with
  | (inl e, w') => (inl e, w')
  | (inr _, w') =>
      match this_db w', objectStores (engine w') !! c, request_error f with
      | None, _, _ => (inl TypeError_db_is_null, w')
      | Some _, None, _ => (inl (DOMException "NotFoundError"), w')
      | Some _, Some _, Some e => (inl (DOMException e), w')
      | Some _, Some store, None => (inr (), committed c (store_put data store) w')
      end
  end.
Proof.
  unfold put, lazy_init, transaction, commit, committed, mbind, M_bind, mret, M_ret,
    read_db, read_engine, write_engine, reject; simpl.
  destruct (this_db w) eqn:Hdb; simpl.
  - rewrite Hdb. destruct (objectStores (engine w) !! c); [|done].
    destruct (request_error f); [done|]. by rewrite Hdb.
  - destruct (init f w) as [[e|[]] w']; [done|].
    destruct (this_db w') eqn:Hdb'; [|done].
    destruct (objectStores (engine w') !! c); [|done].
    destruct (request_error f); [done|]. by rewrite Hdb'.
Qed.

Lemma delete_unfold c id f w :
  LocalDatabase.delete c id f w =
  match lazy_init f w with
  | (inl e, w') => (inl e, w')
  | (inr _, w') =>
      match this_db w', objectStores (engine w') !! c, request_error f with
      | None, _, _ => (inl TypeError_db_is_null, w')
      | Some _, None, _ => (inl (DOMException "NotFoundError"), w')
      | Some _, Some _, Some e => (inl (DOMException e), w')
      | Some _, Some store, None => (inr (), committed c (store_delete id store) w')
      end
  end.
Proof.
  unfold LocalDatabase.delete, lazy_init, transaction, commit, committed,
    mbind, M_bind, mret, M_ret, read_db, read_engine, write_engine, reject; simpl.
  destruct (this_db w) eqn:Hdb; simpl.
  - rewrite Hdb. destruct (objectStores (engine w) !! c); [|done].
    destruct (request_error f); [done|]. by rewrite Hdb.
  - destruct (init f w) as [[e|[]] w']; [done|].
    destruct (this_db w') eqn:Hdb'; [|done].
    destruct (objectStores (engine w') !! c); [|done].
    destruct (request_error f); [done|]. by rewrite Hdb'.
Qed.

(** [store.getAll()] lists exactly the records the store maps a key to. *)
Lemma elem_of_store_getAll d store :
  d ∈ store_getAll store ↔ ∃ k, store !! k = Some d.
Proof.
  unfold store_getAll. rewrite list_elem_of_fmap. split.
  - intros [[k d'] [-> Hin]]. exists k. by apply elem_of_map_to_list in Hin.
  - intros [k Hk]. exists (k, d). split; [done|]. by apply elem_of_map_to_list.
Qed.

Lemma store_put_keys data store :
  (∀ k d, store !! k = Some d → keyPath_id d = k) →
  ∀ k d, store_put data store !! k = Some d → keyPath_id d = k.
Proof.
  intros Hk k d. unfold store_put. rewrite lookup_insert.
  destruct (decide (keyPath_id data = k)); [by intros [= <-] | apply Hk].
Qed.

Lemma store_delete_keys id store :
  (∀ k d, store !! k = Some d → keyPath_id d = k) →
  ∀ k d, store_delete id store !! k = Some d → keyPath_id d = k.
Proof.
  intros Hk k d. unfold store_delete. rewrite lookup_delete.
  destruct (decide (id = k)); [by intros [=] | apply Hk].
Qed.

(** What a settled operation has done to the world. *)
Lemma getAll_resolved c f w l w' :
  getAll c f w = (inr l, w') →
  l = store_getAll (store_of c w) ∧ (∀ c', store_of c' w' = store_of c' w).
Proof.
  rewrite getAll_unfold. destruct (lazy_init f w) as [[e|[]] w1] eqn:Hl; [by intros [=]|].
  destruct (this_db w1); [|by intros [=]].
  destruct (objectStores (engine w1) !! c) as [s|] eqn:Hs; [|by intros [=]].
  destruct (request_error f); [by intros [=]|]. intros [= <- <-].
  split; [|intros c'; by eapply lazy_init_store_of].
  rewrite <-(lazy_init_store_of _ _ _ _ c Hl). by rewrite (store_lookup_store_of _ _ _ Hs).
Qed.

Lemma put_resolved c data f w w' :
  put c data f w = (inr (), w') →
  store_of c w' = store_put data (store_of c w)
  ∧ (∀ c', c' ≠ c → store_of c' w' = store_of c' w).
Proof.
  rewrite put_unfold. destruct (lazy_init f w) as [[e|[]] w1] eqn:Hl; [by intros [=]|].
  destruct (this_db w1); [|by intros [=]].
  destruct (objectStores (engine w1) !! c) as [s|] eqn:Hs; [|by intros [=]].
  destruct (request_error f); [by intros [=]|]. intros [= <-].
  split.
  - rewrite store_of_committed, decide_True by done.
    rewrite <-(lazy_init_store_of _ _ _ _ c Hl). by rewrite (store_lookup_store_of _ _ _ Hs).
  - intros c' Hne. rewrite store_of_committed, decide_False by done.
    by eapply lazy_init_store_of.
Qed.

Lemma delete_resolved c id f w w' :
  LocalDatabase.delete c id f w = (inr (), w') →
  store_of c w' = store_delete id (store_of c w)
  ∧ (∀ c', c' ≠ c → store_of c' w' = store_of c' w).
Proof.
  rewrite delete_unfold. destruct (lazy_init f w) as [[e|[]] w1] eqn:Hl; [by intros [=]|].
  destruct (this_db w1); [|by intros [=]].
  destruct (objectStores (engine w1) !! c) as [s|] eqn:Hs; [|by intros [=]].
  destruct (request_error f); [by intros [=]|]. intros [= <-].
  split.
  - rewrite store_of_committed, decide_True by done.
    rewrite <-(lazy_init_store_of _ _ _ _ c Hl). by rewrite (store_lookup_store_of _ _ _ Hs).
  - intros c' Hne. rewrite store_of_committed, decide_False by done.
    by eapply lazy_init_store_of.
Qed.

(** A rejected operation has changed no record. *)
Lemma put_rejected c data f w e w' :
  put c data f w = (inl e, w') → ∀ c', store_of c' w' = store_of c' w.
Proof.
  rewrite put_unfold. destruct (lazy_init f w) as [[e1|[]] w1] eqn:Hl.
  - intros [= _ <-] c'. by eapply lazy_init_store_of.
  - destruct (this_db w1); [|intros [= _ <-] c'; by eapply lazy_init_store_of].
    destruct (objectStores (engine w1) !! c);
      [|intros [= _ <-] c'; by eapply lazy_init_store_of].
    destruct (request_error f); [|by intros [=]].
    intros [= _ <-] c'; by eapply lazy_init_store_of.
Qed.

(** The operations preserve the invariant, however they settle. *)
Lemma getAll_wf c f w r w' :
  wf w → getAll c f w = (r, w') → wf w'.
Proof.
  intros Hwf. rewrite getAll_unfold.
  destruct (lazy_init f w) as [[e|[]] w1] eqn:Hl;
    pose proof (lazy_init_wf _ _ _ _ Hwf Hl) as Hwf1; [by intros [= _ <-]|].
  destruct (this_db w1); [|by intros [= _ <-]].
  destruct (objectStores (engine w1) !! c); [|by intros [= _ <-]].
  destruct (request_error f); by intros [= _ <-].
Qed.

Lemma put_wf c data f w r w' :
  wf w → put c data f w = (r, w') → wf w'.
Proof.
  intros Hwf. rewrite put_unfold.
  destruct (lazy_init f w) as [[e|[]] w1] eqn:Hl;
    pose proof (lazy_init_wf _ _ _ _ Hwf Hl) as Hwf1; [by intros [= _ <-]|].
  destruct (this_db w1); [|by intros [= _ <-]].
  destruct (objectStores (engine w1) !! c) as [s|] eqn:Hs; [|by intros [= _ <-]].
  destruct (request_error f); [by intros [= _ <-]|]. intros [= _ <-].
  apply wf_committed; [done|]. apply store_put_keys.
  rewrite <-(store_lookup_store_of _ _ _ Hs). apply (wf_keys _ Hwf1).
Qed.

Lemma delete_wf c id f w r w' :
  wf w → LocalDatabase.delete c id f w = (r, w') → wf w'.
Proof.
  intros Hwf. rewrite delete_unfold.
  destruct (lazy_init f w) as [[e|[]] w1] eqn:Hl;
    pose proof (lazy_init_wf _ _ _ _ Hwf Hl) as Hwf1; [by intros [= _ <-]|].
  destruct (this_db w1); [|by intros [= _ <-]].
  destruct (objectStores (engine w1) !! c) as [s|] eqn:Hs; [|by intros [= _ <-]].
  destruct (request_error f); [by intros [= _ <-]|]. intros [= _ <-].
  apply wf_committed; [done|]. apply store_delete_keys.
  rewrite <-(store_lookup_store_of _ _ _ Hs). apply (wf_keys _ Hwf1).
Qed.

(** With the engine refusing nothing, an operation on one of the two
    collections of a well-formed world resolves. *)
Lemma getAll_resolves c f w :
  wf w → c ∈ collections →
  (this_db w = None → open_error f = None) → request_error f = None →
  ∃ w', getAll c f w = (inr (store_getAll (store_of c w)), w').
Proof.
  intros Hwf Hc Hopen Hreq.
  destruct (lazy_init_resolves f w Hwf Hopen) as (w1 & Hl & Hwf1 & Hdb1 & Hst & _).
  exists w1. rewrite getAll_unfold, Hl.
  rewrite (wf_store_lookup c w1 Hwf1 Hdb1 Hc), Hreq, Hst.
  destruct Hdb1 as [h ->]. done.
Qed.

Lemma put_resolves c data f w :
  wf w → c ∈ collections →
  (this_db w = None → open_error f = None) → request_error f = None →
  ∃ w', put c data f w = (inr (), w') ∧ wf w' ∧ is_Some (this_db w').
Proof.
  intros Hwf Hc Hopen Hreq.
  destruct (lazy_init_resolves f w Hwf Hopen) as (w1 & Hl & Hwf1 & Hdb1 & Hst & _).
  eexists. split_and!.
  - rewrite put_unfold, Hl.
    rewrite (wf_store_lookup c w1 Hwf1 Hdb1 Hc), Hreq.
    destruct Hdb1 as [h ->]. done.
  - apply wf_committed; [done|]. apply store_put_keys, (wf_keys _ Hwf1).
  - done.
Qed.

Lemma delete_resolves c id f w :
  wf w → c ∈ collections →
  (this_db w = None → open_error f = None) → request_error f = None →
  ∃ w', LocalDatabase.delete c id f w = (inr (), w') ∧ wf w' ∧ is_Some (this_db w')
        ∧ (is_Some (this_db w) → store_of c w !! id = None → w' = w).
Proof.
  intros Hwf Hc Hopen Hreq.
  destruct (lazy_init_resolves f w Hwf Hopen) as (w1 & Hl & Hwf1 & Hdb1 & Hst & Hsame).
  eexists. split_and!.
  - rewrite delete_unfold, Hl.
    rewrite (wf_store_lookup c w1 Hwf1 Hdb1 Hc), Hreq.
    destruct Hdb1 as [h ->]. done.
  - apply wf_committed; [done|]. apply store_delete_keys, (wf_keys _ Hwf1).
  - done.
  - intros Hdb Hnone. rewrite (Hsame Hdb) in *.
    unfold store_delete. rewrite delete_id by done.
    apply committed_same. by apply wf_store_lookup.
Qed.

(** Every public operation preserves the invariant, however it settles. *)
Lemma perform_wf op f w :
  wf w → wf (perform op f w).2.
Proof.
  intros Hwf. destruct op as [c|c d|c i]; simpl.
  - destruct (getAll c f w) as [r w'] eqn:H. by eapply getAll_wf.
  - destruct (put c d f w) as [r w'] eqn:H. by eapply put_wf.
  - destruct (LocalDatabase.delete c i f w) as [r w'] eqn:H. by eapply delete_wf.
Qed.

(** The scenario of the specification: on a fresh origin, [init], then
    [put("notes", note_a)], then [getAll("notes")] lists exactly that note. *)
Example scenario_put_listAll :
  (init no_faults;; put "notes" (DNote note_a) no_faults;; getAll "notes" no_faults)
    World_initial
  = (inr [DNote note_a],
     committed "notes" {[ "a" := DNote note_a ]} World_opened).
Proof. by vm_compute. Qed.

Lemma init_World_initial : init no_faults World_initial = (inr (), World_opened).
Proof. by vm_compute. Qed.

Lemma wf_World_opened : wf World_opened.
Proof.
  pose proof (init_wf no_faults World_initial _ _ wf_initial init_World_initial). done.
Qed.

End LocalStore.

(* ===================================================================== *)
(** * The local store: the properties of the specification *)
(* ===================================================================== *)

Section LocalStoreProperties.

Import LocalDatabase.

(** When [put] and the [getAll] after it both resolve, whatever the world
    and the collection, the list holds the record. *)
Lemma put_getAll_includes c record f1 f2 w w1 l w2 :
  put c record f1 w = (inr (), w1) →
  getAll c f2 w1 = (inr l, w2) →
  record ∈ l.
Proof.
  intros Hput Hget.
  apply put_resolved in Hput as [Hst _]. apply getAll_resolved in Hget as [-> _].
  rewrite Hst. apply elem_of_store_getAll. exists (keyPath_id record).
  unfold store_put. apply lookup_insert_eq.
Qed.

(** C1.  Round trip of [put] through [listAll]: for every record and each
    of the two collections, in every well-formed world and with the engine
    refusing neither the open nor the two requests, [put(c, record)]
    resolves, the [getAll(c)] issued right after it resolves, and the list
    it resolves with contains [record]; [record] is moreover the only
    entry of the list that carries its [id]. *)
Theorem put_listAll_roundtrip c record f1 f2 w :
  wf w → c ∈ collections →
  (this_db w = None → open_error f1 = None) →
  request_error f1 = None → request_error f2 = None →
  ∃ w1 w2 l,
    put c record f1 w = (inr (), w1)
    ∧ getAll c f2 w1 = (inr l, w2)
    ∧ record ∈ l
    ∧ (∀ r, r ∈ l → keyPath_id r = keyPath_id record → r = record).
Proof.
  intros Hwf Hc Hopen Hreq1 Hreq2.
  destruct (put_resolves c record f1 w Hwf Hc Hopen Hreq1) as (w1 & Hput & Hwf1 & Hdb1).
  destruct (getAll_resolves c f2 w1 Hwf1 Hc) as (w2 & Hget); [|done|].
  { intros Hnone. rewrite Hnone in Hdb1. by destruct Hdb1. }
  exists w1, w2, (store_getAll (store_of c w1)). split_and!; [done..| |].
  - by eapply put_getAll_includes.
  - intros r Hr Hkey. apply elem_of_store_getAll in Hr as [k Hk].
    pose proof (wf_keys _ Hwf1 _ _ _ Hk) as Hrk.
    apply put_resolved in Hput as [Hst _]. rewrite Hst in Hk.
    unfold store_put in Hk. rewrite lookup_insert, decide_True in Hk by congruence.
    congruence.
Qed.

Lemma put_listAll_roundtrip_witness :
  wf World_initial ∧ "notes" ∈ collections
  ∧ (this_db World_initial = None → open_error no_faults = None)
  ∧ request_error no_faults = None
  ∧ ∃ w1 w2 l,
      put "notes" (DNote note_a) no_faults World_initial = (inr (), w1)
      ∧ getAll "notes" no_faults w1 = (inr l, w2)
      ∧ DNote note_a ∈ l
      ∧ (∀ r, r ∈ l → keyPath_id r = keyPath_id (DNote note_a) → r = DNote note_a).
Proof.
  assert ("notes" ∈ collections) as Hc by (unfold collections; repeat constructor).
  split_and!; [apply wf_initial | exact Hc | reflexivity | reflexivity |].
  apply (put_listAll_roundtrip "notes" (DNote note_a) no_faults no_faults World_initial);
    [apply wf_initial | exact Hc | reflexivity | reflexivity | reflexivity].
Defined.

(** C2.  For each of the two collections and every [id], in every
    well-formed world and with the engine refusing nothing:
    [delete(c, id)] resolves, whether or not a record with that [id]
    exists; the [getAll(c)] after it resolves with a list in which no
    record has that [id]; and when no record had that [id], the records of
    the collection are the ones it had (and the whole world is unchanged
    when the database was already open). *)
Theorem delete_listAll_excludes c id f1 f2 w :
  wf w → c ∈ collections →
  (this_db w = None → open_error f1 = None) →
  request_error f1 = None → request_error f2 = None →
  ∃ w1 w2 l,
    LocalDatabase.delete c id f1 w = (inr (), w1)
    ∧ getAll c f2 w1 = (inr l, w2)
    ∧ (∀ r, r ∈ l → keyPath_id r ≠ id)
    ∧ (store_of c w !! id = None →
       store_of c w1 = store_of c w ∧ (is_Some (this_db w) → w1 = w)).
Proof.
  intros Hwf Hc Hopen Hreq1 Hreq2.
  destruct (delete_resolves c id f1 w Hwf Hc Hopen Hreq1)
    as (w1 & Hdel & Hwf1 & Hdb1 & Hsame).
  destruct (getAll_resolves c f2 w1 Hwf1 Hc) as (w2 & Hget); [|done|].
  { intros Hnone. rewrite Hnone in Hdb1. by destruct Hdb1. }
  exists w1, w2, (store_getAll (store_of c w1)). split_and!; [done..| |].
  - intros r Hr Hkey. apply elem_of_store_getAll in Hr as [k Hk].
    pose proof (wf_keys _ Hwf1 _ _ _ Hk) as Hrk.
    apply delete_resolved in Hdel as [Hst _]. rewrite Hst in Hk.
    unfold store_delete in Hk. rewrite lookup_delete, decide_True in Hk by congruence.
    done.
  - intros Hnone. split; [|by auto].
    apply delete_resolved in Hdel as [Hst _]. rewrite Hst.
    unfold store_delete. by apply delete_id.
Qed.

Lemma delete_listAll_excludes_witness :
  wf World_opened ∧ "habits" ∈ collections
  ∧ (this_db World_opened = None → open_error no_faults = None)
  ∧ request_error no_faults = None
  ∧ ∃ w1 w2 l,
      LocalDatabase.delete "habits" "h1" no_faults World_opened = (inr (), w1)
      ∧ getAll "habits" no_faults w1 = (inr l, w2)
      ∧ (∀ r, r ∈ l → keyPath_id r ≠ "h1")
      ∧ (store_of "habits" World_opened !! "h1" = None →
         store_of "habits" w1 = store_of "habits" World_opened
         ∧ (is_Some (this_db World_opened) → w1 = World_opened)).
Proof.
  assert ("habits" ∈ collections) as Hc by (unfold collections; repeat constructor).
  split_and!; [apply wf_World_opened | exact Hc | reflexivity | reflexivity |].
  apply (delete_listAll_excludes "habits" "h1" no_faults no_faults World_opened);
    [apply wf_World_opened | exact Hc | reflexivity | reflexivity | reflexivity].
Defined.

(** C8, as stated, fails: [init] has no guard of its own, so a call on an
    open, well-formed world resolves but opens a second connection and
    stores it in [this.db]; the world, and the handle in it, are not the
    ones before the call. *)
Lemma init_open_not_noop :
  is_Some (this_db World_opened)
  ∧ init no_faults World_opened ≠ (inr (), World_opened)
  ∧ this_db (init no_faults World_opened).2 = Some {| conn := 1 |}
  ∧ this_db (init no_faults World_opened).2 ≠ this_db World_opened.
Proof. split_and!; [by eexists | by vm_compute | by vm_compute | by vm_compute]. Qed.

(** C8, amended.  Calling [init] when the database is already open is safe
    but not a no-op: in a well-formed world with [this.db] set, however the
    call settles, the version, the object stores and so every stored record
    are unchanged, the world stays well-formed and [this.db] stays set; if
    the engine grants the open, the call resolves and [this.db] is replaced
    by the new connection; if it refuses, the call rejects with that error
    and the world is exactly the one before. *)
Theorem init_when_open f w :
  wf w → is_Some (this_db w) →
  ∃ r w',
    init f w = (r, w')
    ∧ version (engine w') = version (engine w)
    ∧ objectStores (engine w') = objectStores (engine w)
    ∧ (∀ c, store_of c w' = store_of c w)
    ∧ wf w' ∧ is_Some (this_db w')
    ∧ (open_error f = None →
       r = inr () ∧ this_db w' = Some {| conn := opened (engine w) |})
    ∧ (∀ e, open_error f = Some e → r = inl (DOMException e) ∧ w' = w).
Proof.
  intros Hwf Hdb. pose proof (wf_open _ Hwf Hdb) as Hver.
  destruct (open_error f) as [e|] eqn:Hf.
  - exists (inl (DOMException e)), w. rewrite (init_rejects_with f w e Hf).
    split_and!; try done. by intros e' [= <-].
  - destruct (init_resolves f w Hwf Hf) as (w' & Hi & Hwf' & Hdb' & Heng).
    specialize (Heng Hver). exists (inr ()), w'.
    split_and!; try done; try (by rewrite Heng);
      try (intros c; by eapply init_store_of); rewrite ?Hdb'; eauto.
Qed.

Lemma init_when_open_witness :
  wf World_opened ∧ is_Some (this_db World_opened)
  ∧ ∃ r w',
      init no_faults World_opened = (r, w')
      ∧ version (engine w') = version (engine World_opened)
      ∧ objectStores (engine w') = objectStores (engine World_opened)
      ∧ (∀ c, store_of c w' = store_of c World_opened)
      ∧ wf w' ∧ is_Some (this_db w')
      ∧ (open_error no_faults = None →
         r = inr () ∧ this_db w' = Some {| conn := opened (engine World_opened) |})
      ∧ (∀ e, open_error no_faults = Some e → r = inl (DOMException e) ∧ w' = World_opened).
Proof.
  assert (is_Some (this_db World_opened)) as Hdb by (eexists; reflexivity).
  split_and!; [apply wf_World_opened | exact Hdb |].
  apply (init_when_open no_faults World_opened); [apply wf_World_opened | exact Hdb].
Defined.

(** No operation ever reaches [this.db!] with [this.db] null, whatever the
    engine does: the statement before it either sets [this.db] or rejects. *)
Lemma perform_never_null op f w :
  (perform op f w).1 ≠ Some TypeError_db_is_null.
Proof.
  destruct op as [c|c d|c i]; simpl.
  - rewrite getAll_unfold. destruct (lazy_init f w) as [[e|[]] w1] eqn:Hl; simpl.
    + intros [= ->]. revert Hl. apply lazy_init_never_null.
    + destruct (lazy_init_is_open _ _ _ Hl) as [h ->].
      destruct (_ !! c); [destruct (request_error f)|]; simpl; congruence.
  - rewrite put_unfold. destruct (lazy_init f w) as [[e|[]] w1] eqn:Hl; simpl.
    + intros [= ->]. revert Hl. apply lazy_init_never_null.
    + destruct (lazy_init_is_open _ _ _ Hl) as [h ->].
      destruct (_ !! c); [destruct (request_error f)|]; simpl; congruence.
  - rewrite delete_unfold. destruct (lazy_init f w) as [[e|[]] w1] eqn:Hl; simpl.
    + intros [= ->]. revert Hl. apply lazy_init_never_null.
    + destruct (lazy_init_is_open _ _ _ Hl) as [h ->].
      destruct (_ !! c); [destruct (request_error f)|]; simpl; congruence.
Qed.

(** C9.  Each of [getAll], [put] and [delete] opens the database before it
    goes on: when the initialization it may need succeeds (the world is
    well-formed and the engine grants the open if [this.db] is null), the
    operation does not reject with the null-handle [TypeError], and
    [this.db] is set in the world it leaves. *)
Theorem operations_ensure_open op f w :
  wf w →
  (this_db w = None → open_error f = None) →
  (perform op f w).1 ≠ Some TypeError_db_is_null
  ∧ is_Some (this_db (perform op f w).2).
Proof.
  intros Hwf Hopen. split; [apply perform_never_null|].
  destruct (lazy_init_resolves f w Hwf Hopen) as (w1 & Hl & Hwf1 & Hdb1 & _).
  destruct op as [c|c d|c i]; simpl.
  - rewrite getAll_unfold, Hl. destruct Hdb1 as [h Hh]. rewrite Hh.
    destruct (_ !! c); [destruct (request_error f)|]; simpl; rewrite Hh; eauto.
  - rewrite put_unfold, Hl. destruct Hdb1 as [h Hh]. rewrite Hh.
    destruct (_ !! c); [destruct (request_error f)|]; simpl; rewrite ?Hh; eauto.
  - rewrite delete_unfold, Hl. destruct Hdb1 as [h Hh]. rewrite Hh.
    destruct (_ !! c); [destruct (request_error f)|]; simpl; rewrite ?Hh; eauto.
Qed.

Lemma operations_ensure_open_witness :
  wf World_initial
  ∧ (this_db World_initial = None → open_error no_faults = None)
  ∧ (perform (Put "notes" (DNote note_a)) no_faults World_initial).1
    ≠ Some TypeError_db_is_null
  ∧ is_Some (this_db (perform (Put "notes" (DNote note_a)) no_faults World_initial).2).
Proof.
  split_and!; [apply wf_initial | reflexivity | |];
    apply (operations_ensure_open (Put "notes" (DNote note_a)) no_faults World_initial);
    solve [apply wf_initial | reflexivity].
Defined.

End LocalStoreProperties.

(* ===================================================================== *)
(** * The habit handlers: lemmas *)
(* ===================================================================== *)

Section Habits.

Import App.

Lemma filter_ne_absent (today : string) (days : list string) :
  today ∉ days → filter (λ d, d ≠ today) days = days.
Proof.
  induction days as [|d days IH]; [done|].
  rewrite not_elem_of_cons. intros [Hne Hnotin].
  rewrite filter_cons_True by done. by rewrite IH.
Qed.

Lemma filter_ne_not_elem (today : string) (days : list string) :
  today ∉ filter (λ d, d ≠ today) days.
Proof. rewrite list_elem_of_filter. by intros [? _]. Qed.

Lemma nextDays_absent today days :
  today ∉ days → nextDays today days = days ++ [today].
Proof. intros H. unfold nextDays. by rewrite bool_decide_eq_false_2. Qed.

Lemma nextDays_present today days :
  today ∈ days → nextDays today days = filter (λ d, d ≠ today) days.
Proof. intros H. unfold nextDays. by rewrite bool_decide_eq_true_2. Qed.

(** Toggling flips the membership of [today] and of no other day. *)
Lemma elem_of_nextDays today days d :
  d ∈ nextDays today days ↔ (d = today ∧ today ∉ days) ∨ (d ≠ today ∧ d ∈ days).
Proof.
  destruct (decide (today ∈ days)) as [Hin|Hnotin].
  - rewrite nextDays_present by done. rewrite list_elem_of_filter. tauto.
  - rewrite nextDays_absent by done. rewrite elem_of_app, list_elem_of_singleton.
    destruct (decide (d = today)) as [->|Hne]; tauto.
Qed.

(** Two toggles in a row: the array is rebuilt with [today] moved to the
    end when it was present, and is the original one when it was absent. *)
Lemma nextDays_twice today days :
  nextDays today (nextDays today days)
  = if decide (today ∈ days) then filter (λ d, d ≠ today) days ++ [today] else days.
Proof.
  destruct (decide (today ∈ days)) as [Hin|Hnotin].
  - rewrite (nextDays_present _ _ Hin).
    by rewrite nextDays_absent by apply filter_ne_not_elem.
  - rewrite (nextDays_absent _ _ Hnotin).
    rewrite nextDays_present by (rewrite elem_of_app, list_elem_of_singleton; auto).
    rewrite list.filter_app, filter_ne_absent by done.
    rewrite filter_cons_False by (intros H; by apply H).
    by rewrite filter_nil, app_nil_r.
Qed.

Lemma toggled_streak_ok today h : streak_ok (toggled today h).
Proof. done. Qed.

Lemma newHabits_lookup habits habitId today i :
  newHabits habits habitId today !! i
  = (λ h, if decide (Habit.id h = habitId) then toggled today h else h) <$> habits !! i.
Proof. unfold newHabits. apply list_lookup_fmap. Qed.

Lemma newHabits_streak_ok habits habitId today :
  (∀ h, h ∈ habits → streak_ok h) →
  ∀ h, h ∈ newHabits habits habitId today → streak_ok h.
Proof.
  intros Hall h. unfold newHabits. rewrite list_elem_of_fmap.
  intros (h0 & -> & Hin). destruct (decide _); [apply toggled_streak_ok | by apply Hall].
Qed.

(** What [handleToggleHabit] hands to [setHabits] when it resolves. *)
Lemma handleToggleHabit_resolved habits habitId today f w hs w' :
  handleToggleHabit habits habitId today f w = (inr hs, w') →
  hs = newHabits habits habitId today.
Proof.
  unfold handleToggleHabit, mbind, M_bind, mret, M_ret.
  destruct (List.find _ _) as [u|].
  - destruct (LocalDatabase.saveHabit u f w) as [[e|[]] w1]; by intros [= <- _].
  - by intros [= <- _].
Qed.

(** The handler writes at most one record, under the key [habitId] of the
    [habits] collection. *)
Lemma handleToggleHabit_stores habits habitId today f w r w' :
  handleToggleHabit habits habitId today f w = (r, w') →
  ∀ c k, (c, k) ≠ ("habits", habitId) → store_of c w' !! k = store_of c w !! k.
Proof.
  unfold handleToggleHabit, mbind, M_bind, mret, M_ret.
  destruct (List.find _ _) as [u|] eqn:Hfind; [|by intros [= _ <-]].
  apply find_some in Hfind as [_ Hid]. apply bool_decide_eq_true in Hid.
  unfold LocalDatabase.saveHabit.
  destruct (LocalDatabase.put "habits" (DHabit u) f w) as [[e|[]] w1] eqn:Hput;
    intros [= _ <-] c k Hne.
  - by rewrite (put_rejected _ _ _ _ _ _ Hput).
  - apply put_resolved in Hput as [Hst Hother].
    destruct (decide (c = "habits")) as [->|Hc]; [|by rewrite Hother].
    rewrite Hst. unfold store_put; simpl. rewrite lookup_insert_ne; [done|].
    intros Heq. apply Hne. congruence.
Qed.

Lemma saveHabit_inv habit f w r w' :
  wf w → stored_habits_ok w → streak_ok habit →
  LocalDatabase.saveHabit habit f w = (r, w') →
  wf w' ∧ stored_habits_ok w'.
Proof.
  intros Hwf Hst Hok Hsave. unfold LocalDatabase.saveHabit in Hsave.
  split; [by eapply put_wf|].
  intros k d. destruct r as [e|[]].
  - rewrite (put_rejected _ _ _ _ _ _ Hsave). apply Hst.
  - apply put_resolved in Hsave as [-> _]. unfold store_put. rewrite lookup_insert.
    destruct (decide _); [intros [= <-]; eauto | apply Hst].
Qed.

Lemma init_inv f w r w' :
  wf w → stored_habits_ok w → LocalDatabase.init f w = (r, w') →
  wf w' ∧ stored_habits_ok w'.
Proof.
  intros Hwf Hst Hi. split; [by eapply init_wf|].
  intros k d. rewrite (init_store_of _ _ _ _ _ Hi). apply Hst.
Qed.

Lemma getAll_inv c f w r w' :
  wf w → stored_habits_ok w → LocalDatabase.getAll c f w = (r, w') →
  wf w' ∧ stored_habits_ok w'
  ∧ (∀ l, r = inr l → l = store_getAll (store_of c w)).
Proof.
  intros Hwf Hst Hg. split; [by eapply getAll_wf|].
  assert (∀ c', store_of c' w' = store_of c' w) as Hsame.
  { revert Hg. rewrite getAll_unfold.
    destruct (lazy_init f w) as [[e|[]] w1] eqn:Hl.
    - intros [= _ <-] c'. by eapply lazy_init_store_of.
    - destruct (this_db w1); [|intros [= _ <-] c'; by eapply lazy_init_store_of].
      destruct (_ !! c); [|intros [= _ <-] c'; by eapply lazy_init_store_of].
      destruct (request_error f); intros [= _ <-] c'; by eapply lazy_init_store_of. }
  split.
  - intros k d. rewrite Hsame. apply Hst.
  - intros l ->. by apply getAll_resolved in Hg as [-> _].
Qed.

Lemma habits_inv_initial : habits_inv State_initial.
Proof.
  split; simpl; [apply wf_initial | by intros h ?%elem_of_nil |].
  intros k d. unfold store_of; simpl. by rewrite lookup_empty.
Qed.

Lemma habits_inv_step st st' :
  habits_inv st → step st st' → habits_inv st'.
Proof.
  intros [Hwf Hlist Hst] Hstep. destruct Hstep as [st name uuid f|st habitId today f|st f|st].
  - (* createHabit *)
    unfold run, createHabit.
    destruct name as [name|]; [|by split].
    destruct (decide (name = "")); [by split|].
    unfold mbind, M_bind, mret, M_ret.
    set (habit := {| Habit.id := uuid |}).
    assert (streak_ok habit) as Hok by done.
    destruct (LocalDatabase.saveHabit habit f (world st)) as [[e|[]] w1] eqn:Hsave;
      destruct (saveHabit_inv _ _ _ _ _ Hwf Hst Hok Hsave) as [Hwf1 Hst1];
      split; simpl; try done.
    intros h. rewrite elem_of_app, list_elem_of_singleton. intros [Hin| ->]; auto.
  - (* handleToggleHabit *)
    unfold run, handleToggleHabit, mbind, M_bind, mret, M_ret.
    pose proof (newHabits_streak_ok (habits st) habitId today Hlist) as Hnew.
    destruct (List.find _ _) as [u|] eqn:Hfind; [|by split].
    apply find_some in Hfind as [Hin _]. apply list_elem_of_In in Hin.
    destruct (LocalDatabase.saveHabit u f (world st)) as [[e|[]] w1] eqn:Hsave;
      destruct (saveHabit_inv _ _ _ _ _ Hwf Hst (Hnew _ Hin) Hsave) as [Hwf1 Hst1];
      by split.
  - (* loadData *)
    unfold run, loadData, mbind, M_bind, mret, M_ret.
    destruct (LocalDatabase.init f (world st)) as [[e|[]] w1] eqn:Hi;
      destruct (init_inv _ _ _ _ Hwf Hst Hi) as [Hwf1 Hst1]; [by split|].
    unfold LocalDatabase.getAllNotes, LocalDatabase.getAllHabits.
    destruct (LocalDatabase.getAll "notes" f w1) as [[e|ns] w2] eqn:Hn;
      destruct (getAll_inv _ _ _ _ _ Hwf1 Hst1 Hn) as (Hwf2 & Hst2 & _); [by split|].
    destruct (LocalDatabase.getAll "habits" f w2) as [[e|hs] w3] eqn:Hh;
      destruct (getAll_inv _ _ _ _ _ Hwf2 Hst2 Hh) as (Hwf3 & Hst3 & Hl); [by split|].
    split; simpl; try done.
    intros h. unfold fetchedHabits. rewrite list_elem_of_omap.
    intros ([n|h'] & Hin & [= <-]). rewrite (Hl _ eq_refl) in Hin.
    apply elem_of_store_getAll in Hin as [k Hk].
    destruct (Hst2 _ _ Hk) as (h0 & [= <-] & Hok). done.
  - (* reload *)
    unfold reload. split; simpl.
    + destruct Hwf as [Hv Ho Hs Hk]. split; simpl; try done; by intros [? [=]].
    + by intros h ?%elem_of_nil.
    + done.
Qed.

End Habits.

(* ===================================================================== *)
(** * The habit handlers: the properties of the specification *)
(* ===================================================================== *)

Section HabitProperties.

Import App.

(** The array that holds the days is another matter than the set it stands
    for: [handleToggleHabit] removes a day with [filter] and adds it with an
    append, so toggling a day that is present, but not as the last entry,
    twice in a row leaves the same days in another order. *)
Lemma toggle_twice_reorders :
  let st := {| habits := [habit_two_days]; world := World_initial |} in
  let toggle := run (λ hs, handleToggleHabit hs "h1" "2024-05-01" no_faults) in
  Habit.completedDays <$> habits (toggle st) = [["2024-05-02"]]
  ∧ Habit.completedDays <$> habits (toggle (toggle st)) = [["2024-05-02"; "2024-05-01"]]
  ∧ Habit.completedDays (toggled "2024-05-01" (toggled "2024-05-01" habit_two_days))
    ≠ Habit.completedDays habit_two_days.
Proof. split_and!; by vm_compute. Qed.

(** C3.  For every habit and every day, toggling the day twice in a row
    returns [completedDays], the set of days on which the habit was
    completed, to its original state: the set of the days of the array is
    the original one, a day being in the array afterwards exactly when it
    was in it before.  Of the array that holds the set: when the day was
    absent the array is the original one, and when it was present the array
    is the original one with the day moved to the end (more than one entry
    of that day collapsing to one); so the array is the original one exactly
    when the day was absent from it, or was its last entry and occurred
    nowhere else. *)
Theorem toggle_twice_completedDays today h :
  list_to_set (Habit.completedDays (toggled today (toggled today h)))
  =@{gset string} list_to_set (Habit.completedDays h)
  ∧ (∀ d, d ∈ Habit.completedDays (toggled today (toggled today h))
          ↔ d ∈ Habit.completedDays h)
  ∧ Habit.completedDays (toggled today (toggled today h))
    = (if decide (today ∈ Habit.completedDays h)
       then filter (λ d, d ≠ today) (Habit.completedDays h) ++ [today]
       else Habit.completedDays h)
  ∧ (Habit.completedDays (toggled today (toggled today h)) = Habit.completedDays h
     ↔ today ∉ Habit.completedDays h
       ∨ ∃ l, Habit.completedDays h = l ++ [today] ∧ today ∉ l).
Proof.
  simpl. set (days := Habit.completedDays h).
  assert (∀ d, d ∈ nextDays today (nextDays today days) ↔ d ∈ days) as Hsame.
  { intros d. rewrite !elem_of_nextDays.
    destruct (decide (d = today)) as [->|Hne]; destruct (decide (today ∈ days)); tauto. }
  split_and!.
  - apply set_eq. intros d. by rewrite !elem_of_list_to_set.
  - done.
  - apply nextDays_twice.
  - rewrite nextDays_twice. destruct (decide (today ∈ days)) as [Hin|Hnotin].
    + split.
      * intros Heq. right. exists (filter (λ d, d ≠ today) days).
        split; [done | apply filter_ne_not_elem].
      * intros [Hnotin|(l & Hl & Hnotin)]; [done|].
        rewrite Hl, list.filter_app, filter_ne_absent by done.
        rewrite filter_cons_False by (intros H; by apply H).
        by rewrite filter_nil, app_nil_r.
    + split; [by left | done].
Qed.

(** C4.  In every state the program reaches from its first start, by
    creating habits, toggling completions, loading the stored data and
    reloading the page, whatever the user enters, the clock shows and the
    engine refuses: the [streak] of every habit of the list is the number
    of entries of its [completedDays], and the same holds of every record
    of the [habits] collection, which are all habits. *)
Theorem streak_counts_completedDays st :
  reachable st →
  (∀ h, h ∈ habits st →
        Habit.streak h = Z.of_nat (length (Habit.completedDays h)))
  ∧ (∀ k d, store_of "habits" (world st) !! k = Some d →
            ∃ h, d = DHabit h
                 ∧ Habit.streak h = Z.of_nat (length (Habit.completedDays h))).
Proof.
  intros Hreach. cut (habits_inv st); [by intros [_ Hl Hs]|].
  revert st Hreach. apply rtc_ind_r.
  - apply habits_inv_initial.
  - intros st st' _ Hstep IH. by eapply habits_inv_step.
Qed.

Lemma reachable_State_session : reachable State_session.
Proof.
  unfold reachable, State_session.
  eapply rtc_r; [eapply rtc_r; [apply rtc_refl|]|].
  - apply step_createHabit.
  - apply step_handleToggleHabit.
Qed.

Lemma streak_counts_completedDays_witness :
  reachable State_session
  ∧ (∀ h, h ∈ habits State_session →
          Habit.streak h = Z.of_nat (length (Habit.completedDays h)))
  ∧ (∀ k d, store_of "habits" (world State_session) !! k = Some d →
            ∃ h, d = DHabit h
                 ∧ Habit.streak h = Z.of_nat (length (Habit.completedDays h))).
Proof.
  split; [apply reachable_State_session|].
  apply (streak_counts_completedDays State_session), reachable_State_session.
Defined.

(** C10.  For every habit list, habit id, day and behaviour of the engine,
    running [handleToggleHabit] keeps the length of the list, leaves every
    habit whose [id] differs exactly as it was, and leaves the [id] and the
    [name] of a habit it toggles unchanged; in the store it touches nothing
    but the record of that id in the [habits] collection. *)
Theorem toggle_frame st habitId today f i h :
  habits st !! i = Some h →
  let st' := run (λ hs, handleToggleHabit hs habitId today f) st in
  length (habits st') = length (habits st)
  ∧ (Habit.id h ≠ habitId → habits st' !! i = Some h)
  ∧ (Habit.id h = habitId →
     ∃ h', habits st' !! i = Some h'
           ∧ Habit.id h' = Habit.id h ∧ Habit.name h' = Habit.name h)
  ∧ (∀ c k, (c, k) ≠ ("habits", habitId) →
            store_of c (world st') !! k = store_of c (world st) !! k).
Proof.
  intros Hi st'. subst st'. unfold run.
  destruct (handleToggleHabit (habits st) habitId today f (world st)) as [[e|hs] w']
    eqn:Hrun; simpl.
  - split_and!; [done | done | eauto |].
    by eapply handleToggleHabit_stores.
  - pose proof (handleToggleHabit_resolved _ _ _ _ _ _ _ Hrun) as ->.
    split_and!.
    + unfold newHabits. by rewrite length_fmap.
    + intros Hne. rewrite newHabits_lookup, Hi. simpl. by rewrite decide_False.
    + intros Heq. rewrite newHabits_lookup, Hi. simpl. rewrite decide_True by done.
      by eexists.
    + by eapply handleToggleHabit_stores.
Qed.

Lemma toggle_frame_witness :
  habits State_two_days !! 0%nat = Some habit_two_days
  ∧ let st' := run (λ hs, handleToggleHabit hs "h1" "2024-05-02" no_faults)
                   State_two_days in
    length (habits st') = length (habits State_two_days)
    ∧ (Habit.id habit_two_days ≠ "h1" → habits st' !! 0%nat = Some habit_two_days)
    ∧ (Habit.id habit_two_days = "h1" →
       ∃ h', habits st' !! 0%nat = Some h'
             ∧ Habit.id h' = Habit.id habit_two_days
             ∧ Habit.name h' = Habit.name habit_two_days)
    ∧ (∀ c k, (c, k) ≠ ("habits", "h1") →
              store_of c (world st') !! k = store_of c (world State_two_days) !! k).
Proof.
  split; [reflexivity|].
  apply (toggle_frame State_two_days "h1" "2024-05-02" no_faults 0 habit_two_days).
  reflexivity.
Defined.

End HabitProperties.

(* ===================================================================== *)
(** * The offline cache proxy: lemmas *)
(* ===================================================================== *)

Section CacheProxy.

Import SW.

Lemma caches_has_open cacheName caches :
  caches_has cacheName (caches_open cacheName caches) = true.
Proof.
  unfold caches_open. destruct (caches_has cacheName caches) eqn:Hhas; [done|].
  unfold caches_has. apply bool_decide_eq_true.
  rewrite fmap_app, elem_of_app. right. simpl. apply list_elem_of_singleton. done.
Qed.

(** Opening a cache adds no entry. *)
Lemma entry_caches_open cacheName n u caches :
  entry n u (caches_open cacheName caches) = entry n u caches.
Proof.
  unfold caches_open. destruct (caches_has cacheName caches); [done|].
  unfold entry. rewrite omap_app. simpl.
  destruct (decide (cacheName = n)); simpl; by rewrite ?lookup_empty, app_nil_r.
Qed.

(** Leaving the fragment out of a URL adds nothing to it: what it then
    starts with, or contains, the URL started with, or contained. *)
Lemma prefix_without_fragment s u :
  String.prefix s (without_fragment u) = true → String.prefix s u = true.
Proof.
  revert u. induction s as [|a s IH]; intros [|c u]; simpl; try done.
  destruct (_ =? _)%nat; [done|]. simpl.
  destruct (Ascii.ascii_dec a c); [apply IH | done].
Qed.

Lemma includes_without_fragment s u :
  includes s (without_fragment u) = true → includes s u = true.
Proof.
  induction u as [|c u IH]; [done|].
  intros H. change (String.prefix s (String c u) || includes s u = true).
  apply orb_true_iff. revert H. simpl. destruct (_ =? _)%nat.
  - destruct s; [by left | done].
  - destruct s as [|a s]; [by left|]. simpl.
    intros [H|H]%orb_true_iff; [|right; by apply IH].
    left. destruct (Ascii.ascii_dec a c); [by apply prefix_without_fragment | done].
Qed.

(** A [cache.put] the cache rejects changes nothing. *)
Lemma cache_put_refused cacheName request response caches :
  put_accepted request response = false →
  cache_put cacheName request response caches = caches.
Proof. intros Hno. unfold cache_put. by rewrite Hno. Qed.

(** After a [cache.put] it takes, the cache answers for the URL with the
    response put. *)
Lemma entry_cache_put cacheName request response caches :
  put_accepted request response = true →
  caches_has cacheName caches = true →
  entry cacheName (without_fragment (url request))
        (cache_put cacheName request response caches)
  = Some response.
Proof.
  intros Hyes. unfold caches_has, entry, cache_put. rewrite Hyes, bool_decide_eq_true.
  induction caches as [|[n c] caches IH]; simpl.
  - by intros ?%elem_of_nil.
  - rewrite elem_of_cons. intros Hin.
    destruct (decide (n = cacheName)) as [->|Hne]; simpl.
    + rewrite decide_True by done. by rewrite lookup_insert_eq.
    + rewrite decide_False by done. destruct Hin as [->|Hin]; [done|]. by apply IH.
Qed.

(** [cache.put] changes no other entry. *)
Lemma entry_cache_put_other cacheName request response caches n u :
  (n, u) ≠ (cacheName, without_fragment (url request)) →
  entry n u (cache_put cacheName request response caches) = entry n u caches.
Proof.
  intros Hne. unfold entry, cache_put. destruct (put_accepted _ _); [|done].
  set (get := λ nc : string * gmap string Response,
                if decide (nc.1 = n) then nc.2 !! u else None).
  set (upd := λ nc : string * gmap string Response,
                if decide (nc.1 = cacheName)
                then (nc.1, <[without_fragment (url request) := response]> nc.2)
                else nc).
  assert (Hget : ∀ nc, get (upd nc) = get nc).
  { intros [n' c]. unfold get, upd; simpl.
    destruct (decide (n' = cacheName)) as [->|Hn]; simpl; [|done].
    destruct (decide (cacheName = n)) as [->|Hn']; [|done].
    rewrite lookup_insert_ne; [done|]. intros Heq. apply Hne. by rewrite Heq. }
  f_equal. induction caches as [|nc caches IH]; [done|].
  csimpl. by rewrite IH, Hget.
Qed.

(** The listener on a request it handles: the promise given to
    [respondWith], case by case. *)
Lemma on_fetch_cached net request caches response :
  includes "generativelanguage.googleapis.com" (url request) = false →
  caches_match request caches = Some response →
  on_fetch net request caches = (Responded response, caches).
Proof.
  intros Hapi Hhit. unfold on_fetch. rewrite Hapi.
  unfold respondWith, catch, mbind, P_bind, read. by rewrite Hhit.
Qed.

Lemma on_fetch_fetched net request caches fetchResponse :
  includes "generativelanguage.googleapis.com" (url request) = false →
  caches_match request caches = None →
  net request = Some fetchResponse →
  on_fetch net request caches =
  (Responded fetchResponse,
   if bool_decide (method request = "GET")
      && negb (includes "chrome-extension" (url request))
   then cache_put CACHE_NAME request fetchResponse (caches_open CACHE_NAME caches)
   else caches_open CACHE_NAME caches).
Proof.
  intros Hapi Hmiss Hnet. unfold on_fetch. rewrite Hapi.
  unfold respondWith, catch, mbind, P_bind, read, fetch, update, mret, P_ret.
  rewrite Hmiss, Hnet. by destruct (_ && _).
Qed.

Lemma on_fetch_offline net request caches :
  includes "generativelanguage.googleapis.com" (url request) = false →
  caches_match request caches = None →
  net request = None →
  on_fetch net request caches =
  (if decide (mode request = "navigate")
   then match caches_match (Request_of "/index.html") caches with
        | Some shell => Responded shell
        | None => NetworkError
        end
   else NetworkError,
   caches).
Proof.
  intros Hapi Hmiss Hnet. unfold on_fetch. rewrite Hapi.
  unfold respondWith, catch, mbind, P_bind, read, fetch, rejected, mret, P_ret.
  rewrite Hmiss, Hnet. destruct (decide _); [|done].
  by destruct (caches_match (Request_of "/index.html") caches).
Qed.

(** The names of the caches are not touched by [cache.put]. *)
Lemma caches_has_cache_put cacheName n request response caches :
  caches_has n (cache_put cacheName request response caches) = caches_has n caches.
Proof.
  assert ((cache_put cacheName request response caches).*1 = caches.*1) as Hnames.
  { unfold cache_put. destruct (put_accepted _ _); [|done]. rewrite <-list_fmap_compose.
    apply list_fmap_ext. intros i [n' c] _. simpl. by destruct (decide _). }
  unfold caches_has. by rewrite Hnames.
Qed.

(** An entry of some cache is a match of [caches.match] for its URL. *)
Lemma entry_caches_match cacheName u caches :
  without_fragment u = u →
  is_Some (entry cacheName u caches) →
  is_Some (caches_match (Request_of u) caches).
Proof.
  intros Hu. unfold entry, caches_match. rewrite !head_is_Some. intros Hne Hnil. apply Hne.
  apply elem_of_nil_inv. intros r. rewrite list_elem_of_omap.
  intros ([n c] & Hin & Hr). simpl in Hr. destruct (decide _); [|done].
  eapply (elem_of_not_nil r); [|exact Hnil].
  apply list_elem_of_omap. exists (n, c). split; [done|].
  unfold cache_match. simpl. by rewrite Hu.
Qed.

Lemma entry_caches_delete cacheName n u caches :
  n ≠ cacheName →
  entry cacheName u (caches_delete n caches) = entry cacheName u caches.
Proof.
  intros Hne. unfold entry, caches_delete, CacheStorage in *. f_equal.
  induction caches as [|[n' c] caches IH]; [done|].
  destruct (decide (n' = n)) as [->|Hn'].
  - rewrite filter_cons_False by (simpl; intros H; by apply H). csimpl.
    by rewrite decide_False, IH.
  - rewrite filter_cons_True by done. csimpl. by rewrite IH.
Qed.

(** [activate] keeps every entry of the current cache. *)
Lemma entry_activate u caches :
  entry CACHE_NAME u (activate caches).2 = entry CACHE_NAME u caches.
Proof.
  unfold activate, mbind, P_bind, read, update. simpl.
  generalize (caches_keys caches). intros names. revert caches.
  induction names as [|n names IH]; intros caches; [done|]. simpl.
  rewrite IH. destruct (decide (n ≠ CACHE_NAME)); [|done].
  by apply entry_caches_delete.
Qed.

(** What [cache.addAll] takes of an asset, [cache.put] takes under an
    [http(s)] URL. *)
Lemma addAll_put_accepted u r :
  addAll_accepted r = true → http_url u = true →
  put_accepted (Request_of u) r = true.
Proof.
  unfold addAll_accepted, put_accepted. simpl. intros Hr ->.
  destruct (ok r); [|done]. simpl in *. by rewrite Hr.
Qed.

(** A successful [install] has stored the application shell. *)
Lemma install_stores_shell net caches caches' :
  install net caches = (Some (), caches') →
  is_Some (entry CACHE_NAME "/index.html" caches').
Proof.
  unfold install, mbind, P_bind, update, rejected. simpl.
  destruct (net (Request_of "/")) as [r1|]; simpl; [|by intros [=]].
  destruct (net (Request_of "/index.html")) as [r2|]; simpl;
    [|rewrite andb_false_r; by intros [=]].
  destruct (net (Request_of "/manifest.json")) as [r3|]; simpl;
    [|rewrite !andb_false_r; by intros [=]].
  destruct (net (Request_of "https://cdn.tailwindcss.com")) as [r4|]; simpl;
    [|rewrite !andb_false_r; by intros [=]].
  destruct (net (Request_of _)) as [r5|]; simpl;
    [|rewrite !andb_false_r; by intros [=]].
  destruct (addAll_accepted r1), (addAll_accepted r2) eqn:Hr2, (addAll_accepted r3),
    (addAll_accepted r4), (addAll_accepted r5); simpl; intros [= <-].
  rewrite !entry_cache_put_other by (by intros [=]).
  exists r2. apply (entry_cache_put CACHE_NAME (Request_of "/index.html"));
    [by apply addAll_put_accepted|].
  rewrite caches_has_cache_put. apply caches_has_open.
Qed.

(** The [fetch] listener never loses the application shell. *)
Lemma on_fetch_keeps_shell net request caches :
  is_Some (entry CACHE_NAME "/index.html" caches) →
  is_Some (entry CACHE_NAME "/index.html" (on_fetch net request caches).2).
Proof.
  intros Hshell.
  destruct (includes "generativelanguage.googleapis.com" (url request)) eqn:Hapi.
  { unfold on_fetch. by rewrite Hapi. }
  destruct (caches_match request caches) as [r|] eqn:Hmatch.
  { by rewrite (on_fetch_cached _ _ _ _ Hapi Hmatch). }
  destruct (net request) as [r|] eqn:Hnet.
  - rewrite (on_fetch_fetched _ _ _ _ Hapi Hmatch Hnet). simpl.
    destruct (_ && _); [|by rewrite entry_caches_open].
    destruct (put_accepted request r) eqn:Hacc;
      [|by rewrite cache_put_refused, entry_caches_open].
    destruct (decide (without_fragment (url request) = "/index.html")) as [Hu|Hu].
    + rewrite <-Hu, entry_cache_put; [by eexists | done | apply caches_has_open].
    + rewrite entry_cache_put_other by congruence. by rewrite entry_caches_open.
  - by rewrite (on_fetch_offline _ _ _ Hapi Hmatch Hnet).
Qed.

(** While the worker serves, the application shell is in the cache. *)
Lemma serving_has_shell caches :
  serving caches → is_Some (caches_match (Request_of "/index.html") caches).
Proof.
  intros Hs. apply (entry_caches_match CACHE_NAME); [done|].
  induction Hs as [net caches caches' Hinstall|net request caches _ IH].
  - rewrite entry_activate. by eapply install_stores_shell.
  - by apply on_fetch_keeps_shell.
Qed.

Lemma serving_caches_active : serving caches_active.
Proof. by apply (serving_activated net_online [] (install net_online []).2). Qed.

(** The fragment of a URL plays no part in the lookup: a request for the
    shell with a fragment is answered from the cache. *)
Lemma match_ignores_fragment :
  let request := {| url := "/index.html#notes"; method := "GET"; mode := "navigate" |} in
  on_fetch net_offline request caches_active
  = (Responded {| status := 200; body := "/index.html"; vary_any := false |},
     caches_active).
Proof. intros request. apply on_fetch_cached; by vm_compute. Qed.

(** A partial answer is handed to the page and not stored: the cache
    rejects the put, and the next lookup misses as the first did. *)
Lemma partial_response_not_cached :
  let request := {| url := "/clip.mp4"; method := "GET"; mode := "no-cors" |} in
  let response := {| status := 206; body := "bytes 0-99"; vary_any := false |} in
  let net : Network := λ _, Some response in
  caches_match request caches_active = None
  ∧ (on_fetch net request caches_active).1 = Responded response
  ∧ entry CACHE_NAME "/clip.mp4" (on_fetch net request caches_active).2 = None
  ∧ caches_match request (on_fetch net request caches_active).2 = None.
Proof. split_and!; by vm_compute. Qed.

End CacheProxy.

(* ===================================================================== *)
(** * The offline cache proxy: the properties of the specification *)
(* ===================================================================== *)

Section CacheProxyProperties.

Import SW.

(** C5.  For every request the listener handles for which the cache lookup
    finds nothing and the network fetch fails, the cache storage is left as
    it was, and: if the request is a navigation, the page gets the cached
    application shell, the response stored for [/index.html], which is there
    in every cache storage the installed and activated worker serves from;
    for every other request mode the page gets the failure, and no response
    is substituted. *)
Theorem offline_fallback net request caches :
  includes "generativelanguage.googleapis.com" (url request) = false →
  caches_match request caches = None →
  net request = None →
  (on_fetch net request caches).2 = caches
  ∧ (mode request = "navigate" →
     ∀ shell, caches_match (Request_of "/index.html") caches = Some shell →
              (on_fetch net request caches).1 = Responded shell)
  ∧ (mode request = "navigate" → serving caches →
     ∃ shell, caches_match (Request_of "/index.html") caches = Some shell
              ∧ (on_fetch net request caches).1 = Responded shell)
  ∧ (mode request ≠ "navigate" →
     (on_fetch net request caches).1 = NetworkError).
Proof.
  intros Hapi Hmiss Hnet. rewrite (on_fetch_offline _ _ _ Hapi Hmiss Hnet). simpl.
  split_and!; [done|..].
  - intros Hnav shell Hshell. by rewrite decide_True, Hshell.
  - intros Hnav Hserving. destruct (serving_has_shell _ Hserving) as [shell Hshell].
    exists shell. by rewrite decide_True, Hshell.
  - intros Hnav. by rewrite decide_False.
Qed.

Lemma offline_fallback_witness :
  let request := {| url := "/notes"; method := "GET"; mode := "navigate" |} in
  includes "generativelanguage.googleapis.com" (url request) = false
  ∧ caches_match request caches_active = None
  ∧ net_offline request = None
  ∧ (on_fetch net_offline request caches_active).2 = caches_active
  ∧ (mode request = "navigate" →
     ∀ shell, caches_match (Request_of "/index.html") caches_active = Some shell →
              (on_fetch net_offline request caches_active).1 = Responded shell)
  ∧ (mode request = "navigate" → serving caches_active →
     ∃ shell, caches_match (Request_of "/index.html") caches_active = Some shell
              ∧ (on_fetch net_offline request caches_active).1 = Responded shell)
  ∧ (mode request ≠ "navigate" →
     (on_fetch net_offline request caches_active).1 = NetworkError).
Proof.
  intros request.
  split_and!; [vm_compute; reflexivity | vm_compute; reflexivity | reflexivity |..];
    apply (offline_fallback net_offline request caches_active);
    vm_compute; reflexivity.
Defined.

(** C6, as stated, fails: the listener never looks at the response it
    stores, so the [404] answer to a [GET] request that missed the cache is
    put in the cache like any other. *)
Lemma not_found_response_is_cached :
  let request := {| url := "/missing.js"; method := "GET"; mode := "no-cors" |} in
  let response := {| status := 404; body := "Not Found"; vary_any := false |} in
  caches_match request caches_active = None
  ∧ net_not_found request = Some response
  ∧ ok response = false
  ∧ (on_fetch net_not_found request caches_active).1 = Responded response
  ∧ entry CACHE_NAME "/missing.js" caches_active = None
  ∧ entry CACHE_NAME "/missing.js" (on_fetch net_not_found request caches_active).2
    = Some response.
Proof. split_and!; by vm_compute. Qed.

(** C6, amended.  For every request the listener handles that misses the
    cache and whose network fetch completes, the page gets the fetched
    response, and a copy of it is stored in the cache exactly when the
    request method is [GET], the URL does not contain [chrome-extension],
    and the cache takes the put, which it does for an [http(s)] URL and a
    response that is neither a partial answer (status 206) nor marked
    [Vary: *].  The listener does not look at the response: whether the
    request was successful plays no part, and the answer to an unsuccessful
    one is stored like any other.  When a copy is stored, the cache
    [CACHE_NAME] answers for the URL, its fragment left out, with that
    response and no other entry has changed; in every other case no entry
    of any cache has changed. *)
Theorem cache_population net request caches fetchResponse :
  includes "generativelanguage.googleapis.com" (url request) = false →
  caches_match request caches = None →
  net request = Some fetchResponse →
  (on_fetch net request caches).1 = Responded fetchResponse
  ∧ (method request = "GET" → includes "chrome-extension" (url request) = false →
     http_url (url request) = true →
     status fetchResponse ≠ 206%nat → vary_any fetchResponse = false →
     entry CACHE_NAME (without_fragment (url request)) (on_fetch net request caches).2
     = Some fetchResponse
     ∧ ∀ n u, (n, u) ≠ (CACHE_NAME, without_fragment (url request)) →
              entry n u (on_fetch net request caches).2 = entry n u caches)
  ∧ (method request ≠ "GET" ∨ includes "chrome-extension" (url request) = true
     ∨ http_url (url request) = false
     ∨ status fetchResponse = 206%nat ∨ vary_any fetchResponse = true →
     ∀ n u, entry n u (on_fetch net request caches).2 = entry n u caches).
Proof.
  intros Hapi Hmiss Hnet. rewrite (on_fetch_fetched _ _ _ _ Hapi Hmiss Hnet). simpl.
  split_and!; [done|..].
  - intros Hget Hext Hhttp Hstatus Hvary.
    rewrite bool_decide_eq_true_2, Hext by done. simpl.
    assert (put_accepted request fetchResponse = true) as Hacc.
    { unfold put_accepted. rewrite Hhttp, bool_decide_eq_true_2, Hvary by done. simpl.
      rewrite andb_true_r. apply negb_true_iff. by apply Nat.eqb_neq. }
    split.
    + by apply entry_cache_put, caches_has_open.
    + intros n u Hne. by rewrite entry_cache_put_other, entry_caches_open.
  - intros Hnot n u.
    destruct (bool_decide (method request = "GET")
              && negb (includes "chrome-extension" (url request))) eqn:Hguard;
      [|apply entry_caches_open].
    apply andb_true_iff in Hguard as [Hget%bool_decide_eq_true Hext%negb_true_iff].
    rewrite cache_put_refused; [apply entry_caches_open|].
    unfold put_accepted.
    destruct Hnot as [Hm|[He|[-> |[-> | ->]]]]; [done | congruence | done |..].
    + by rewrite andb_false_r.
    + apply andb_false_r.
Qed.

Lemma cache_population_witness :
  let request := {| url := "/logo.png"; method := "GET"; mode := "no-cors" |} in
  let fetchResponse := {| status := 200; body := "/logo.png"; vary_any := false |} in
  includes "generativelanguage.googleapis.com" (url request) = false
  ∧ caches_match request caches_active = None
  ∧ net_online request = Some fetchResponse
  ∧ (on_fetch net_online request caches_active).1 = Responded fetchResponse
  ∧ (method request = "GET" → includes "chrome-extension" (url request) = false →
     http_url (url request) = true →
     status fetchResponse ≠ 206%nat → vary_any fetchResponse = false →
     entry CACHE_NAME (without_fragment (url request))
           (on_fetch net_online request caches_active).2
     = Some fetchResponse
     ∧ ∀ n u, (n, u) ≠ (CACHE_NAME, without_fragment (url request)) →
              entry n u (on_fetch net_online request caches_active).2
              = entry n u caches_active)
  ∧ (method request ≠ "GET" ∨ includes "chrome-extension" (url request) = true
     ∨ http_url (url request) = false
     ∨ status fetchResponse = 206%nat ∨ vary_any fetchResponse = true →
     ∀ n u, entry n u (on_fetch net_online request caches_active).2
            = entry n u caches_active).
Proof.
  intros request fetchResponse.
  split_and!; [vm_compute; reflexivity | vm_compute; reflexivity | reflexivity |..];
    apply (cache_population net_online request caches_active fetchResponse);
    vm_compute; reflexivity.
Defined.

(** C7.  For every request whose URL contains the host of the
    insight-generation endpoint, whatever the cache storage holds and
    whatever the network does, the listener returns without
    [respondWith]: the request is not intercepted, so it is not answered
    from the cache, and the cache storage is left exactly as it was. *)
Theorem api_requests_pass_through net request caches :
  includes "generativelanguage.googleapis.com" (url request) = true →
  on_fetch net request caches = (NotIntercepted, caches).
Proof. intros Hapi. unfold on_fetch. by rewrite Hapi. Qed.

Lemma api_requests_pass_through_witness :
  let request :=
    {| url := "https://generativelanguage.googleapis.com/v1beta/models/gemini-3-flash-preview:generateContent";
       method := "POST"; mode := "cors" |} in
  includes "generativelanguage.googleapis.com" (url request) = true
  ∧ on_fetch net_online request caches_active = (NotIntercepted, caches_active).
Proof.
  intros request. split; [vm_compute; reflexivity|].
  apply (api_requests_pass_through net_online request caches_active).
  vm_compute; reflexivity.
Defined.

End CacheProxyProperties.

(* ===================================================================== *)
(** * The local store: further properties *)
(* ===================================================================== *)

Section LocalStoreFurther.

Import LocalDatabase.

Lemma getAll_store_of c f w r w' c' :
  getAll c f w = (r, w') → store_of c' w' = store_of c' w.
Proof.
  rewrite getAll_unfold. destruct (lazy_init f w) as [[e|[]] w1] eqn:Hl.
  - intros [= _ <-]. by eapply lazy_init_store_of.
  - destruct (this_db w1); [|intros [= _ <-]; by eapply lazy_init_store_of].
    destruct (_ !! c); [|intros [= _ <-]; by eapply lazy_init_store_of].
    destruct (request_error f); intros [= _ <-]; by eapply lazy_init_store_of.
Qed.

Lemma delete_rejected c id f w e w' :
  LocalDatabase.delete c id f w = (inl e, w') → ∀ c', store_of c' w' = store_of c' w.
Proof.
  rewrite delete_unfold. destruct (lazy_init f w) as [[e1|[]] w1] eqn:Hl.
  - intros [= _ <-] c'. by eapply lazy_init_store_of.
  - destruct (this_db w1); [|intros [= _ <-] c'; by eapply lazy_init_store_of].
    destruct (objectStores (engine w1) !! c);
      [|intros [= _ <-] c'; by eapply lazy_init_store_of].
    destruct (request_error f); [|by intros [=]].
    intros [= _ <-] c'; by eapply lazy_init_store_of.
Qed.

(** The records of a collection, whatever an operation did to the world. *)
Lemma perform_store_of op f w c' :
  store_of c' (perform op f w).2 =
  match (perform op f w).1, op with
  | None, Put c record =>
      if decide (c = c') then store_put record (store_of c w) else store_of c' w
  | None, Delete c id =>
      if decide (c = c') then store_delete id (store_of c w) else store_of c' w
  | _, _ => store_of c' w
  end.
Proof.
  destruct op as [c|c d|c i]; simpl.
  - destruct (getAll c f w) as [r w'] eqn:H. simpl.
    rewrite (getAll_store_of _ _ _ _ _ c' H). by destruct (rejection r).
  - destruct (put c d f w) as [[e|[]] w'] eqn:H; simpl.
    + by rewrite (put_rejected _ _ _ _ _ _ H).
    + apply put_resolved in H as [Hc Hother].
      destruct (decide (c = c')) as [<-|Hne]; [done | by apply Hother].
  - destruct (LocalDatabase.delete c i f w) as [[e|[]] w'] eqn:H; simpl.
    + by rewrite (delete_rejected _ _ _ _ _ _ H).
    + apply delete_resolved in H as [Hc Hother].
      destruct (decide (c = c')) as [<-|Hne]; [done | by apply Hother].
Qed.

(** X1.  [put] is insert-or-replace: in a well-formed world, the list
    [getAll] resolves with after a [put] holds the record put and, besides
    it, exactly the records listed before that have another [id]. *)
Theorem put_insert_or_replace c record f0 f1 f2 w l0 w0 w1 l w2 :
  wf w →
  getAll c f0 w = (inr l0, w0) →
  put c record f1 w0 = (inr (), w1) →
  getAll c f2 w1 = (inr l, w2) →
  ∀ r, r ∈ l ↔ r = record ∨ (r ∈ l0 ∧ keyPath_id r ≠ keyPath_id record).
Proof.
  intros Hwf Hget0 Hput Hget r.
  pose proof (getAll_store_of _ _ _ _ _ c Hget0) as Hsame.
  apply getAll_resolved in Hget0 as [-> _].
  apply put_resolved in Hput as [Hst _]. apply getAll_resolved in Hget as [-> _].
  rewrite Hst, Hsame, !elem_of_store_getAll. unfold store_put. split.
  - intros [k Hk]. rewrite lookup_insert in Hk.
    destruct (decide (keyPath_id record = k)) as [<-|Hne]; [left; congruence|].
    right. split; [eauto|]. by rewrite (wf_keys _ Hwf _ _ _ Hk).
  - intros [->|[[k Hk] Hne]].
    + exists (keyPath_id record). apply lookup_insert_eq.
    + exists k. rewrite lookup_insert_ne; [done|].
      by rewrite <-(wf_keys _ Hwf _ _ _ Hk).
Qed.

Lemma put_insert_or_replace_witness :
  wf World_one_habit
  ∧ getAll "habits" no_faults World_one_habit = (inr [DHabit habit_two_days], World_one_habit)
  ∧ ∀ r, r ∈ [DHabit (App.toggled "2024-05-03" habit_two_days)]
         ↔ r = DHabit (App.toggled "2024-05-03" habit_two_days)
           ∨ (r ∈ [DHabit habit_two_days]
              ∧ keyPath_id r ≠ keyPath_id (DHabit (App.toggled "2024-05-03" habit_two_days))).
Proof.
  assert (wf World_one_habit) as Hwf.
  { apply wf_committed; [apply wf_World_opened|].
    intros k d. rewrite lookup_singleton. destruct (decide _); by intros [= <-]. }
  split_and!; [exact Hwf | by vm_compute |].
  eapply (put_insert_or_replace "habits" (DHabit (App.toggled "2024-05-03" habit_two_days))
            no_faults no_faults no_faults World_one_habit);
    [exact Hwf | by vm_compute | by vm_compute | by vm_compute].
Defined.

(** X2.  [put] is idempotent: once [put(c, record)] has resolved, putting
    the same record again, if the engine does not refuse the request,
    resolves and leaves the world exactly as it was. *)
Theorem put_twice c record f1 f2 w w1 :
  put c record f1 w = (inr (), w1) →
  request_error f2 = None →
  put c record f2 w1 = (inr (), w1).
Proof.
  rewrite put_unfold. destruct (lazy_init f1 w) as [[e|[]] w0] eqn:Hl; [by intros [=]|].
  destruct (this_db w0) as [h|] eqn:Hdb; [|by intros [=]].
  destruct (objectStores (engine w0) !! c) as [s|] eqn:Hs; [|by intros [=]].
  destruct (request_error f1); [by intros [=]|]. intros [= <-] Hreq.
  rewrite put_unfold, lazy_init_open by (simpl; rewrite Hdb; eauto).
  simpl. rewrite Hdb, lookup_insert_eq, Hreq. f_equal.
  unfold store_put. rewrite insert_insert_eq.
  apply committed_same. simpl. apply lookup_insert_eq.
Qed.

Lemma put_twice_witness :
  put "notes" (DNote note_a) no_faults World_initial
  = (inr (), committed "notes" {[ "a" := DNote note_a ]} World_opened)
  ∧ request_error no_faults = None
  ∧ put "notes" (DNote note_a) no_faults
      (committed "notes" {[ "a" := DNote note_a ]} World_opened)
    = (inr (), committed "notes" {[ "a" := DNote note_a ]} World_opened).
Proof.
  split_and!; [by vm_compute | reflexivity |].
  apply (put_twice "notes" (DNote note_a) no_faults no_faults World_initial);
    [by vm_compute | reflexivity].
Defined.

(** X3.  The two collections are independent: whatever an operation on one
    collection does, and however it settles, the records of every other
    collection are the ones they were, so a [getAll] of another collection
    resolves with the same list before and after. *)
Theorem other_collection_untouched op f w c' :
  c' ≠ collection_of op →
  store_of c' (perform op f w).2 = store_of c' w
  ∧ ∀ f1 f2 l1 w1 l2 w2,
      getAll c' f1 w = (inr l1, w1) →
      getAll c' f2 (perform op f w).2 = (inr l2, w2) →
      l2 = l1.
Proof.
  intros Hne.
  assert (store_of c' (perform op f w).2 = store_of c' w) as Hsame.
  { rewrite perform_store_of. destruct (perform op f w).1; [done|].
    destruct op as [c|c d|c i]; simpl in *; [done|by rewrite decide_False..]. }
  split; [done|]. intros f1 f2 l1 w1 l2 w2 H1 H2.
  apply getAll_resolved in H1 as [-> _]. apply getAll_resolved in H2 as [-> _].
  by rewrite Hsame.
Qed.

Lemma other_collection_untouched_witness :
  "habits" ≠ collection_of (Put "notes" (DNote note_a))
  ∧ store_of "habits" (perform (Put "notes" (DNote note_a)) no_faults World_one_habit).2
    = store_of "habits" World_one_habit
  ∧ ∀ f1 f2 l1 w1 l2 w2,
      getAll "habits" f1 World_one_habit = (inr l1, w1) →
      getAll "habits" f2 (perform (Put "notes" (DNote note_a)) no_faults World_one_habit).2
      = (inr l2, w2) →
      l2 = l1.
Proof.
  split; [by vm_compute|].
  apply (other_collection_untouched (Put "notes" (DNote note_a)) no_faults World_one_habit).
  by vm_compute.
Defined.

(** X4.  Round trip of [put] through [delete]: in a well-formed world in
    which no record of the collection has the [id] of [record], putting
    [record] and then deleting its [id] gives back the list [getAll] resolved
    with before. *)
Theorem put_then_delete c record f0 f1 f2 f3 w l0 w0 w1 w2 l w3 :
  wf w →
  getAll c f0 w = (inr l0, w0) →
  (∀ r, r ∈ l0 → keyPath_id r ≠ keyPath_id record) →
  put c record f1 w0 = (inr (), w1) →
  LocalDatabase.delete c (keyPath_id record) f2 w1 = (inr (), w2) →
  getAll c f3 w2 = (inr l, w3) →
  l = l0.
Proof.
  intros Hwf Hget0 Hfresh Hput Hdel Hget.
  pose proof (getAll_store_of _ _ _ _ _ c Hget0) as Hsame.
  apply getAll_resolved in Hget0 as [-> _].
  apply put_resolved in Hput as [Hst1 _]. apply delete_resolved in Hdel as [Hst2 _].
  apply getAll_resolved in Hget as [-> _].
  rewrite Hst2, Hst1, Hsame. unfold store_delete, store_put.
  rewrite delete_insert_eq, delete_id; [done|].
  destruct (store_of c w !! keyPath_id record) as [d|] eqn:Hd; [|done].
  exfalso. apply (Hfresh d); [|by apply (wf_keys _ Hwf c)].
  apply elem_of_store_getAll. eauto.
Qed.

Lemma put_then_delete_witness :
  wf World_one_habit
  ∧ getAll "habits" no_faults World_one_habit = (inr [DHabit habit_two_days], World_one_habit)
  ∧ (∀ r, r ∈ [DHabit habit_two_days] →
          keyPath_id r ≠ keyPath_id (DHabit (Habit.mk "h2" "Run" [] 0)))
  ∧ [DHabit habit_two_days] = [DHabit habit_two_days].
Proof.
  assert (wf World_one_habit) as Hwf.
  { apply wf_committed; [apply wf_World_opened|].
    intros k d. rewrite lookup_singleton. destruct (decide _); by intros [= <-]. }
  assert (∀ r, r ∈ [DHabit habit_two_days] →
               keyPath_id r ≠ keyPath_id (DHabit (Habit.mk "h2" "Run" [] 0))) as Hfresh.
  { intros r ->%list_elem_of_singleton. by vm_compute. }
  split_and!; [exact Hwf | by vm_compute | exact Hfresh |].
  eapply (put_then_delete "habits" (DHabit (Habit.mk "h2" "Run" [] 0))
            no_faults no_faults no_faults no_faults World_one_habit);
    [exact Hwf | by vm_compute | exact Hfresh | by vm_compute | by vm_compute | by vm_compute].
Defined.

(** X5.  A failure leaves no trace in the data: when an operation rejects,
    whatever the reason, and whenever the operation is a [getAll], the
    records of every collection are the ones they were. *)
Theorem rejected_changes_no_record op f w :
  is_Some (perform op f w).1 ∨ (∃ c, op = ListAll c) →
  ∀ c', store_of c' (perform op f w).2 = store_of c' w.
Proof.
  intros Hcase c'. rewrite perform_store_of.
  destruct Hcase as [[e ->]|[c ->]]; [done|]. by destruct (perform _ f w).1.
Qed.

Lemma rejected_changes_no_record_witness :
  let f := {| open_error := None; request_error := Some "QuotaExceededError" |} in
  (is_Some (perform (Put "habits" (DHabit habit_two_days)) f World_opened).1
   ∨ ∃ c, Put "habits" (DHabit habit_two_days) = ListAll c)
  ∧ ∀ c', store_of c' (perform (Put "habits" (DHabit habit_two_days)) f World_opened).2
          = store_of c' World_opened.
Proof.
  intros f.
  assert (is_Some (perform (Put "habits" (DHabit habit_two_days)) f World_opened).1
          ∨ ∃ c, Put "habits" (DHabit habit_two_days) = ListAll c) as Hcase.
  { left. eexists. by vm_compute. }
  split; [exact Hcase|].
  apply (rejected_changes_no_record (Put "habits" (DHabit habit_two_days)) f World_opened).
  exact Hcase.
Defined.

(** X6.  A refused open surfaces to the caller and heals: on a store that is
    not open, an operation for which the engine refuses the open rejects with
    exactly that error and leaves the world as it was, [this.db] still null,
    so that the next operation tries the open again. *)
Theorem open_failure_rejects op f w e :
  this_db w = None → open_error f = Some e →
  perform op f w = (Some (DOMException e), w).
Proof.
  intros Hdb Hf.
  assert (lazy_init f w = (inl (DOMException e), w)) as Hl.
  { rewrite lazy_init_closed by done. by apply init_rejects_with. }
  destruct op as [c|c d|c i]; simpl.
  - by rewrite getAll_unfold, Hl.
  - by rewrite put_unfold, Hl.
  - by rewrite delete_unfold, Hl.
Qed.

Lemma open_failure_rejects_witness :
  let f := {| open_error := Some "SecurityError"; request_error := None |} in
  this_db World_initial = None ∧ open_error f = Some "SecurityError"
  ∧ perform (ListAll "notes") f World_initial
    = (Some (DOMException "SecurityError"), World_initial).
Proof.
  intros f. split_and!; [reflexivity | reflexivity |].
  apply (open_failure_rejects (ListAll "notes") f World_initial "SecurityError");
    reflexivity.
Defined.

(** X7.  The [id] is a key: in a well-formed world the list [getAll]
    resolves with has no two records with the same [id], and has as many
    entries as the collection has keys. *)
Theorem listAll_distinct_ids c f w l w' :
  wf w →
  getAll c f w = (inr l, w') →
  NoDup (keyPath_id <$> l) ∧ length l = size (store_of c w).
Proof.
  intros Hwf Hget. apply getAll_resolved in Hget as [-> _].
  unfold store_getAll. split.
  - assert (keyPath_id <$> (map_to_list (store_of c w)).*2
            = (map_to_list (store_of c w)).*1) as ->.
    { rewrite <-list_fmap_compose. apply list_fmap_ext.
      intros i [k d] Hi. simpl. apply (wf_keys _ Hwf c).
      apply elem_of_map_to_list. apply list_elem_of_lookup. eauto. }
    apply NoDup_fst_map_to_list.
  - by rewrite length_fmap, length_map_to_list.
Qed.

Lemma listAll_distinct_ids_witness :
  wf World_one_habit
  ∧ getAll "habits" no_faults World_one_habit = (inr [DHabit habit_two_days], World_one_habit)
  ∧ NoDup (keyPath_id <$> [DHabit habit_two_days])
  ∧ length [DHabit habit_two_days] = size (store_of "habits" World_one_habit).
Proof.
  assert (wf World_one_habit) as Hwf.
  { apply wf_committed; [apply wf_World_opened|].
    intros k d. rewrite lookup_singleton. destruct (decide _); by intros [= <-]. }
  split_and!; [exact Hwf | by vm_compute | |];
    eapply (listAll_distinct_ids "habits" no_faults World_one_habit);
    solve [exact Hwf | by vm_compute].
Defined.

(** X8.  An open store is never opened again: on a world with [this.db]
    set, an operation keeps that handle, opens no connection and leaves the
    version alone, and whether the engine would have granted an open makes no
    difference to what the operation does. *)
Theorem open_store_keeps_handle op f w :
  is_Some (this_db w) →
  this_db (perform op f w).2 = this_db w
  ∧ opened (engine (perform op f w).2) = opened (engine w)
  ∧ version (engine (perform op f w).2) = version (engine w)
  ∧ ∀ e, perform op {| open_error := e; request_error := request_error f |} w
         = perform op f w.
Proof.
  intros Hdb.
  assert (∀ f', lazy_init f' w = (inr (), w)) as Hl by (intros; by apply lazy_init_open).
  destruct Hdb as [h Hh].
  destruct op as [c|c d|c i]; simpl;
    rewrite ?getAll_unfold, ?put_unfold, ?delete_unfold, Hl, Hh;
    (split_and!; [..|intros e; rewrite ?getAll_unfold, ?put_unfold, ?delete_unfold, Hl, Hh;
                     simpl]);
    destruct (_ !! c); try destruct (request_error f); simpl; done.
Qed.

Lemma open_store_keeps_handle_witness :
  is_Some (this_db World_opened)
  ∧ this_db (perform (Put "notes" (DNote note_a)) no_faults World_opened).2
    = this_db World_opened
  ∧ opened (engine (perform (Put "notes" (DNote note_a)) no_faults World_opened).2)
    = opened (engine World_opened)
  ∧ version (engine (perform (Put "notes" (DNote note_a)) no_faults World_opened).2)
    = version (engine World_opened)
  ∧ ∀ e, perform (Put "notes" (DNote note_a))
           {| open_error := e; request_error := request_error no_faults |} World_opened
         = perform (Put "notes" (DNote note_a)) no_faults World_opened.
Proof.
  assert (is_Some (this_db World_opened)) as Hdb by (eexists; reflexivity).
  split; [exact Hdb|].
  apply (open_store_keeps_handle (Put "notes" (DNote note_a)) no_faults World_opened).
  exact Hdb.
Defined.

End LocalStoreFurther.

(* ===================================================================== *)
(** * The note handlers: lemmas *)
(* ===================================================================== *)

Section NoteLemmas.

Import Notes.

Lemma rev_app_empty s1 s2 : String.rev_app s1 s2 = "" → s1 = "" ∧ s2 = "".
Proof.
  revert s2. induction s1 as [|a s1 IH]; intros s2; simpl; [done|].
  intros H. by destruct (IH _ H) as [_ [=]].
Qed.

Lemma blank_rev_app s1 s2 : blank (String.rev_app s1 s2) = blank s1 && blank s2.
Proof.
  revert s2. induction s1 as [|a s1 IH]; intros s2; simpl; [done|].
  rewrite IH. simpl. destruct (isWhiteSpace a), (blank s1), (blank s2); done.
Qed.

Lemma trimStart_empty s : trimStart s = "" ↔ blank s = true.
Proof.
  induction s as [|a s IH]; simpl; [done|].
  destruct (isWhiteSpace a); simpl; [done|]. split; by intros [=].
Qed.

(** What [trimStart] returns is empty or begins with a character that is not
    white space. *)
Lemma trimStart_head s : trimStart s = "" ∨ blank (trimStart s) = false.
Proof.
  induction s as [|a s IH]; simpl; [by left|].
  destruct (isWhiteSpace a) eqn:Ha; [done|]. right. simpl. by rewrite Ha.
Qed.

(** [trim] returns the empty string exactly on strings of white space. *)
Lemma trim_empty s : trim s = "" ↔ blank s = true.
Proof.
  rewrite <-trimStart_empty. unfold trim, trimEnd, String.rev. split.
  - intros [Hts _]%rev_app_empty. apply trimStart_empty in Hts.
    rewrite blank_rev_app, andb_true_r in Hts.
    destruct (trimStart_head s) as [H|H]; [done | congruence].
  - by intros ->.
Qed.

(** The comparator of [loadData] puts [a] before [b] when [a] is at least
    as recent. *)
Lemma sort_insert_elem_of {A} (cmp : A → A → Z) a l x :
  x ∈ sort_insert cmp a l ↔ x = a ∨ x ∈ l.
Proof.
  induction l as [|b l IH]; simpl.
  - rewrite list_elem_of_singleton, elem_of_nil. tauto.
  - destruct (decide _); rewrite !elem_of_cons, ?IH; tauto.
Qed.

Lemma sort_insert_Permutation {A} (cmp : A → A → Z) a l :
  sort_insert cmp a l ≡ₚ a :: l.
Proof.
  induction l as [|b l IH]; simpl; [done|].
  destruct (decide _); [done|]. rewrite IH. apply perm_swap.
Qed.

Lemma Array_sort_Permutation {A} (cmp : A → A → Z) l :
  Array_sort cmp l ≡ₚ l.
Proof.
  induction l as [|a l IH]; simpl; [done|].
  rewrite sort_insert_Permutation. by rewrite IH.
Qed.

Lemma sort_insert_newest_first a l :
  newest_first l →
  newest_first (sort_insert (λ a b, Note.createdAt b - Note.createdAt a)%Z a l).
Proof.
  unfold newest_first. induction l as [|b l IH]; simpl.
  - intros _. by repeat constructor.
  - rewrite StronglySorted_cons. intros [Hb Hl].
    destruct (decide _) as [Hle|Hgt].
    + apply StronglySorted_cons. split; [|by apply StronglySorted_cons].
      constructor; [lia|]. eapply Forall_impl; [exact Hb|]. simpl. intros c Hc. lia.
    + apply StronglySorted_cons. split; [|by apply IH].
      apply Forall_forall. intros x [->|Hx]%sort_insert_elem_of; [lia|].
      by eapply Forall_forall in Hb.
Qed.

Lemma Array_sort_newest_first l :
  newest_first (Array_sort (λ a b, Note.createdAt b - Note.createdAt a)%Z l).
Proof.
  induction l as [|a l IH]; simpl; [constructor|]. by apply sort_insert_newest_first.
Qed.

(** The sort is stable: the notes created at one instant keep the order they
    had. *)
Lemma Array_sort_stable t l :
  filter (λ n, Note.createdAt n = t)
    (Array_sort (λ a b, Note.createdAt b - Note.createdAt a)%Z l)
  = filter (λ n, Note.createdAt n = t) l.
Proof.
  induction l as [|a l IH]; simpl; [done|].
  rewrite filter_cons, <-IH. clear IH.
  generalize (Array_sort (λ a b, Note.createdAt b - Note.createdAt a)%Z l). intros s.
  induction s as [|b s IH]; simpl; [by rewrite filter_cons|].
  destruct (decide (_ ≤ 0)%Z) as [Hle|Hgt]; [by rewrite (filter_cons _ a)|].
  rewrite !(filter_cons _ b), IH.
  destruct (decide (Note.createdAt a = t)), (decide (Note.createdAt b = t)); try done.
  lia.
Qed.

Lemma filter_newest_first (P : Note.t → Prop) `{!∀ n, Decision (P n)} l :
  newest_first l → newest_first (filter P l).
Proof.
  unfold newest_first. induction l as [|a l IH]; [done|].
  rewrite StronglySorted_cons. intros [Ha Hl]. rewrite filter_cons.
  destruct (decide (P a)); [|by apply IH].
  apply StronglySorted_cons. split; [|by apply IH].
  apply Forall_forall. intros x [_ Hx]%list_elem_of_filter.
  by eapply Forall_forall in Ha.
Qed.

Lemma elem_of_fetchedNotes n ds : n ∈ fetchedNotes ds ↔ DNote n ∈ ds.
Proof.
  unfold fetchedNotes. rewrite list_elem_of_omap. split.
  - by intros ([n'|h] & Hin & [= <-]).
  - intros Hin. by exists (DNote n).
Qed.

(** [handleAddNote], case by case. *)
Lemma handleAddNote_unfold st uuid now f w :
  handleAddNote st uuid now f w =
  if blank (newNoteTitle st) then (inr st, w)
  else
    let note := Note.mk uuid (newNoteTitle st) (newNoteContent st) now (isOnline st) in
    match LocalDatabase.put "notes" (DNote note) f w with
    | (inl e, w') => (inl e, w')
    | (inr _, w') => (inr {| notes := note :: notes st; newNoteTitle := "";
                             newNoteContent := ""; isOnline := isOnline st |}, w')
    end.
Proof.
  unfold handleAddNote. destruct (decide (trim _ = "")) as [Ht|Ht].
  - apply trim_empty in Ht. by rewrite Ht.
  - destruct (blank _) eqn:Hb; [by apply trim_empty in Hb|].
    unfold mbind, M_bind, mret, M_ret, LocalDatabase.saveNote. simpl.
    by destruct (LocalDatabase.put _ _ f w) as [[e|[]] w'].
Qed.

Lemma handleDeleteNote_unfold st id f w :
  handleDeleteNote st id f w =
  match LocalDatabase.delete "notes" id f w with
  | (inl e, w') => (inl e, w')
  | (inr _, w') => (inr {| notes := filter (λ n, Note.id n ≠ id) (notes st);
                           newNoteTitle := newNoteTitle st;
                           newNoteContent := newNoteContent st;
                           isOnline := isOnline st |}, w')
  end.
Proof.
  unfold handleDeleteNote, mbind, M_bind, mret, M_ret, LocalDatabase.deleteNote.
  by destruct (LocalDatabase.delete _ _ f w) as [[e|[]] w'].
Qed.

(** What a resolved [loadData] has read. *)
Lemma loadData_resolved f w ns hs w' :
  loadData f w = (inr (ns, hs), w') →
  ns = Array_sort (λ a b, Note.createdAt b - Note.createdAt a)%Z
         (fetchedNotes (store_getAll (store_of "notes" w)))
  ∧ hs = App.fetchedHabits (store_getAll (store_of "habits" w))
  ∧ (∀ c, store_of c w' = store_of c w)
  ∧ is_Some (this_db w').
Proof.
  unfold loadData, mbind, M_bind, mret, M_ret,
    LocalDatabase.getAllNotes, LocalDatabase.getAllHabits.
  destruct (LocalDatabase.init f w) as [[e|[]] w1] eqn:Hi; [by intros [=]|].
  destruct (LocalDatabase.getAll "notes" f w1) as [[e|l1] w2] eqn:H1; [by intros [=]|].
  destruct (LocalDatabase.getAll "habits" f w2) as [[e|l2] w3] eqn:H2; [by intros [=]|].
  intros [= <- <- <-].
  pose proof (λ c, init_store_of _ _ _ _ c Hi) as Hs1.
  pose proof (λ c, getAll_store_of _ _ _ _ _ c H1) as Hs2.
  pose proof (λ c, getAll_store_of _ _ _ _ _ c H2) as Hs3.
  assert (is_Some (this_db w3)) as Hopen.
  { revert H2. rewrite getAll_unfold.
    destruct (lazy_init f w2) as [[e|[]] w2'] eqn:Hl; [by intros [=]|].
    destruct (this_db w2') eqn:Hd; [|by intros [=]].
    destruct (_ !! "habits"); [|by intros [=]].
    destruct (request_error f); [by intros [=]|]. intros [= _ <-]. rewrite Hd; eauto. }
  apply getAll_resolved in H1 as [-> _]. apply getAll_resolved in H2 as [-> _].
  split_and!; [by rewrite Hs1 | by rewrite Hs2, Hs1 | | done].
  intros c. by rewrite Hs3, Hs2, Hs1.
Qed.

End NoteLemmas.

(* ===================================================================== *)
(** * The note handlers: properties *)
(* ===================================================================== *)

Section NoteProperties.

Import Notes.

(** X9.  A title of white space only adds nothing: [handleAddNote] resolves
    with the state it was given, form fields included, and does not touch
    the world, not even to open the database. *)
Theorem handleAddNote_blank_title st uuid now f w :
  blank (newNoteTitle st) = true →
  handleAddNote st uuid now f w = (inr st, w).
Proof. intros Hb. by rewrite handleAddNote_unfold, Hb. Qed.

Lemma handleAddNote_blank_title_witness :
  blank (newNoteTitle Notes_two) = true
  ∧ handleAddNote Notes_two "u1" 3000 no_faults World_two_notes
    = (inr Notes_two, World_two_notes).
Proof.
  split; [reflexivity|].
  apply (handleAddNote_blank_title Notes_two "u1" 3000 no_faults World_two_notes).
  reflexivity.
Defined.

(** X10.  With a title that is not blank, in a well-formed world and with
    the engine refusing nothing, [handleAddNote] resolves: the new note, made
    of the identifier, the title and content as typed, the time and the
    connectivity flag, is the first of the list, the notes that were there
    follow unchanged, both form fields are cleared, and the note is stored
    under its [id], so that the next [getAllNotes] lists it. *)
Theorem handleAddNote_adds st uuid now f w :
  blank (newNoteTitle st) = false →
  wf w →
  (this_db w = None → open_error f = None) →
  request_error f = None →
  let note := Note.mk uuid (newNoteTitle st) (newNoteContent st) now (isOnline st) in
  ∃ w',
    handleAddNote st uuid now f w
    = (inr {| notes := note :: notes st; newNoteTitle := ""; newNoteContent := "";
              isOnline := isOnline st |}, w')
    ∧ store_of "notes" w' = <[uuid := DNote note]> (store_of "notes" w)
    ∧ ∃ l w'', LocalDatabase.getAllNotes no_faults w' = (inr l, w'') ∧ DNote note ∈ l.
Proof.
  intros Hb Hwf Hopen Hreq note.
  assert ("notes" ∈ collections) as Hc by (unfold collections; repeat constructor).
  destruct (put_resolves "notes" (DNote note) f w Hwf Hc Hopen Hreq)
    as (w' & Hput & Hwf' & Hdb').
  exists w'. rewrite handleAddNote_unfold, Hb. simpl. fold note. rewrite Hput.
  split; [done|].
  pose proof (put_resolved _ _ _ _ _ Hput) as [Hst _]. split; [done|].
  destruct (getAll_resolves "notes" no_faults w' Hwf' Hc) as (w'' & Hget); [|done|].
  { intros Hnone. rewrite Hnone in Hdb'. by destruct Hdb'. }
  exists (store_getAll (store_of "notes" w')), w''. split; [done|].
  apply elem_of_store_getAll. exists uuid. rewrite Hst. apply lookup_insert_eq.
Qed.

Lemma handleAddNote_adds_witness :
  blank (newNoteTitle Notes_typed) = false
  ∧ wf World_initial
  ∧ let note := Note.mk "u1" " Monday " "Slept well" 1000 true in
    ∃ w',
      handleAddNote Notes_typed "u1" 1000 no_faults World_initial
      = (inr {| notes := [note]; newNoteTitle := ""; newNoteContent := "";
                isOnline := true |}, w')
      ∧ store_of "notes" w' = <["u1" := DNote note]> (store_of "notes" World_initial)
      ∧ ∃ l w'', LocalDatabase.getAllNotes no_faults w' = (inr l, w'') ∧ DNote note ∈ l.
Proof.
  split_and!; [reflexivity | apply wf_initial |].
  apply (handleAddNote_adds Notes_typed "u1" 1000 no_faults World_initial);
    [reflexivity | apply wf_initial | reflexivity | reflexivity].
Defined.

(** X11.  Adding keeps the list newest first as long as the clock does not
    run backwards: if the list is newest first and no note of it is more
    recent than the time [Date.now()] reports, the list [handleAddNote]
    resolves with is newest first. *)
Theorem handleAddNote_newest_first st uuid now f w st' w' :
  handleAddNote st uuid now f w = (inr st', w') →
  newest_first (notes st) →
  (∀ n, n ∈ notes st → (Note.createdAt n ≤ now)%Z) →
  newest_first (notes st').
Proof.
  rewrite handleAddNote_unfold. destruct (blank _); [by intros [= <- _]|]. simpl.
  destruct (LocalDatabase.put _ _ f w) as [[e|[]] w1]; [by intros [=]|].
  intros [= <- _] Hsorted Hnow. simpl. apply StronglySorted_cons. split; [|done].
  apply Forall_forall. intros n Hn. simpl. by apply Hnow.
Qed.

Lemma handleAddNote_newest_first_witness :
  let st := {| notes := [note_b; note_a]; newNoteTitle := "Later"; newNoteContent := "";
               isOnline := false |} in
  newest_first (notes st)
  ∧ (∀ n, n ∈ notes st → (Note.createdAt n ≤ 3000)%Z)
  ∧ newest_first
      (Note.mk "c" "Later" "" 3000 false :: [note_b; note_a]).
Proof.
  intros st.
  assert (newest_first (notes st)) as Hs.
  { unfold newest_first. simpl. repeat constructor; simpl; lia. }
  assert (∀ n, n ∈ notes st → (Note.createdAt n ≤ 3000)%Z) as Hnow.
  { intros n. simpl. rewrite !elem_of_cons, elem_of_nil.
    intros [->|[->|[]]]; simpl; lia. }
  split_and!; [exact Hs | exact Hnow |].
  apply (handleAddNote_newest_first st "c" 3000 no_faults World_two_notes
           {| notes := Note.mk "c" "Later" "" 3000 false :: [note_b; note_a];
              newNoteTitle := ""; newNoteContent := ""; isOnline := false |}
           (handleAddNote st "c" 3000 no_faults World_two_notes).2);
    [by vm_compute | exact Hs | exact Hnow].
Defined.

(** X12.  When [handleDeleteNote] resolves, no note of the list and no
    record of the [notes] collection has the [id]; the notes with another
    [id] are all kept, in the order they were in, so a list that was newest
    first still is; the form fields are untouched. *)
Theorem handleDeleteNote_removes st id f w st' w' :
  handleDeleteNote st id f w = (inr st', w') →
  (∀ n, n ∈ notes st' ↔ n ∈ notes st ∧ Note.id n ≠ id)
  ∧ notes st' `sublist_of` notes st
  ∧ (newest_first (notes st) → newest_first (notes st'))
  ∧ store_of "notes" w' = delete id (store_of "notes" w)
  ∧ newNoteTitle st' = newNoteTitle st
  ∧ newNoteContent st' = newNoteContent st
  ∧ isOnline st' = isOnline st.
Proof.
  rewrite handleDeleteNote_unfold.
  destruct (LocalDatabase.delete "notes" id f w) as [[e|[]] w1] eqn:Hdel; [by intros [=]|].
  intros [= <- <-]. simpl. split_and!; try done.
  - intros n. rewrite list_elem_of_filter. tauto.
  - apply sublist_filter.
  - intros Hs. by apply filter_newest_first.
  - by apply delete_resolved in Hdel as [-> _].
Qed.

Lemma handleDeleteNote_removes_witness :
  handleDeleteNote Notes_two "a" no_faults World_two_notes
  = (inr {| notes := [note_b]; newNoteTitle := "   "; newNoteContent := "";
            isOnline := false |},
     committed "notes" {[ "b" := DNote note_b ]} World_opened)
  ∧ (∀ n, n ∈ [note_b] ↔ n ∈ notes Notes_two ∧ Note.id n ≠ "a").
Proof.
  assert (handleDeleteNote Notes_two "a" no_faults World_two_notes
          = (inr {| notes := [note_b]; newNoteTitle := "   "; newNoteContent := "";
                    isOnline := false |},
             committed "notes" {[ "b" := DNote note_b ]} World_opened)) as Hrun
    by (by vm_compute).
  split; [exact Hrun|].
  apply (handleDeleteNote_removes Notes_two "a" no_faults World_two_notes _ _ Hrun).
Defined.

(** X13.  When [loadData] resolves, the note list it hands over is newest
    first and is a rearrangement of exactly the notes of the [notes]
    collection; the habit list is the one read from the [habits] collection;
    no record has changed and the database is open. *)
Theorem loadData_newest_first f w ns hs w' :
  Notes.loadData f w = (inr (ns, hs), w') →
  newest_first ns
  ∧ ns ≡ₚ fetchedNotes (store_getAll (store_of "notes" w))
  ∧ hs = App.fetchedHabits (store_getAll (store_of "habits" w))
  ∧ (∀ c, store_of c w' = store_of c w)
  ∧ is_Some (this_db w').
Proof.
  intros (-> & -> & Hsame & Hopen)%loadData_resolved.
  split_and!; [apply Array_sort_newest_first | apply Array_sort_Permutation | done..].
Qed.

Lemma loadData_newest_first_witness :
  Notes.loadData no_faults World_two_notes
  = (inr ([note_b; note_a], []),
     {| this_db := Some {| conn := 1 |};
        engine := {| version := 1; objectStores := objectStores (engine World_two_notes);
                     opened := 2 |} |})
  ∧ newest_first [note_b; note_a].
Proof.
  assert (Notes.loadData no_faults World_two_notes
          = (inr ([note_b; note_a], []),
             {| this_db := Some {| conn := 1 |};
                engine := {| version := 1;
                             objectStores := objectStores (engine World_two_notes);
                             opened := 2 |} |})) as Hrun by (by vm_compute).
  split; [exact Hrun|].
  apply (loadData_newest_first no_faults World_two_notes _ _ _ Hrun).
Defined.

(** X14.  After [loadData] the screen shows what is stored: in a
    well-formed world whose [notes] collection holds notes only, the note
    list a resolved [loadData] hands over and the [notes] collection hold the
    same notes, each once. *)
Theorem loadData_in_sync f w ns hs w' :
  wf w → stored_notes_ok w →
  Notes.loadData f w = (inr (ns, hs), w') →
  notes_in_sync ns w'.
Proof.
  intros Hwf Hok (-> & _ & Hsame & _)%loadData_resolved.
  set (stored := fetchedNotes (store_getAll (store_of "notes" w))).
  assert (∀ n, n ∈ stored ↔ store_of "notes" w !! Note.id n = Some (DNote n)) as Hin.
  { intros n. unfold stored. rewrite elem_of_fetchedNotes, elem_of_store_getAll. split.
    - intros [k Hk]. by rewrite <-(wf_keys _ Hwf _ _ _ Hk) in Hk.
    - eauto. }
  split.
  - rewrite Array_sort_Permutation. unfold stored, fetchedNotes, store_getAll.
    assert (Note.id <$> omap (λ d, match d with DNote n => Some n | DHabit _ => None end)
                          (map_to_list (store_of "notes" w)).*2
            = (map_to_list (store_of "notes" w)).*1) as ->;
      [|apply NoDup_fst_map_to_list].
    assert (∀ kd, kd ∈ map_to_list (store_of "notes" w) →
                  ∃ n, kd = (Note.id n, DNote n)) as Hall.
    { intros [k d] Hkd%elem_of_map_to_list. destruct (Hok _ _ Hkd) as [n ->].
      exists n. by rewrite <-(wf_keys _ Hwf _ _ _ Hkd). }
    induction (map_to_list (store_of "notes" w)) as [|kd l IH]; [done|].
    destruct (Hall kd) as [n ->]; [by left|]. csimpl. f_equal.
    apply IH. intros kd' Hkd'. apply Hall. by right.
  - intros k d. rewrite Hsame. split.
    + intros Hk. destruct (Hok _ _ Hk) as [n ->]. exists n.
      pose proof (wf_keys _ Hwf _ _ _ Hk) as Hid. simpl in Hid.
      split_and!; [|done..]. rewrite Array_sort_Permutation. apply Hin. by rewrite Hid.
    + intros (n & Hn & <- & ->). rewrite Array_sort_Permutation in Hn. by apply Hin.
Qed.

Lemma loadData_in_sync_witness :
  wf World_two_notes ∧ stored_notes_ok World_two_notes
  ∧ notes_in_sync [note_b; note_a] (Notes.loadData no_faults World_two_notes).2.
Proof.
  assert (∀ k d, ({[ "a" := DNote note_a; "b" := DNote note_b ]} : gmap string Data) !! k
                 = Some d → (d = DNote note_a ∧ k = "a") ∨ (d = DNote note_b ∧ k = "b"))
    as Hstore.
  { intros k d. rewrite lookup_insert. destruct (decide _) as [<-|]; [intros [= <-]; by left|].
    rewrite lookup_singleton. destruct (decide _) as [<-|]; [intros [= <-]; by right|done]. }
  assert (wf World_two_notes) as Hwf.
  { apply wf_committed; [apply wf_World_opened|].
    intros k d [[-> ->]|[-> ->]]%Hstore; reflexivity. }
  assert (stored_notes_ok World_two_notes) as Hok.
  { intros k d. unfold World_two_notes. rewrite store_of_committed. simpl.
    intros [[-> _]|[-> _]]%Hstore; eauto. }
  split_and!; [exact Hwf | exact Hok |].
  apply (loadData_in_sync no_faults World_two_notes [note_b; note_a] []);
    [exact Hwf | exact Hok | by vm_compute].
Defined.

(** X15.  Adding keeps screen and store in step: if the note list and the
    [notes] collection hold the same notes and the new identifier is not the
    [id] of a note of the list, they still hold the same notes after
    [handleAddNote], whether it resolved (with the list it hands to
    [setNotes]) or rejected (with the list left as it was). *)
Theorem handleAddNote_in_sync st uuid now f w r w' :
  notes_in_sync (notes st) w →
  (∀ n, n ∈ notes st → Note.id n ≠ uuid) →
  handleAddNote st uuid now f w = (r, w') →
  notes_in_sync (notes (if r is inr st' then st' else st)) w'.
Proof.
  intros [Hnodup Hsync] Hfresh. rewrite handleAddNote_unfold.
  destruct (blank _); [by intros [= <- <-]|]. simpl.
  destruct (LocalDatabase.put _ _ f w) as [[e|[]] w1] eqn:Hput; intros [= <- <-].
  - split; [done|]. intros k d. rewrite (put_rejected _ _ _ _ _ _ Hput). apply Hsync.
  - apply put_resolved in Hput as [Hst _]. simpl. split.
    + rewrite fmap_cons. apply NoDup_cons. split; [|done]. simpl.
      intros (n & Hid & Hn)%list_elem_of_fmap. by apply (Hfresh n).
    + intros k d. rewrite Hst. unfold store_put. simpl. rewrite lookup_insert.
      destruct (decide (uuid = k)) as [<-|Hne].
      * split.
        -- intros [= <-]. eexists. split_and!; [by left|done..].
        -- intros (n & [->|Hn]%elem_of_cons & Hid & ->); [done|].
           by destruct (Hfresh n Hn).
      * rewrite Hsync. split.
        -- intros (n & Hn & Hid & ->). exists n. split_and!; [by right|done..].
        -- intros (n & [->|Hn]%elem_of_cons & Hid & ->); [done|eauto].
Qed.

Lemma notes_in_sync_two : notes_in_sync [note_b; note_a] World_two_notes.
Proof.
  split; simpl.
  - apply NoDup_cons. split; [by rewrite list_elem_of_singleton | apply NoDup_singleton].
  - intros k d. unfold World_two_notes. rewrite store_of_committed. simpl.
    rewrite lookup_insert. destruct (decide ("a" = k)) as [<-|Ha].
    + split; [intros [= <-]; exists note_a; split_and!; [by right; left|done..]|].
      intros (n & Hn & Hid & ->). revert Hn Hid.
      rewrite !elem_of_cons, elem_of_nil. by intros [->|[->|[]]].
    + rewrite lookup_singleton. destruct (decide ("b" = k)) as [<-|Hb].
      * split; [intros [= <-]; exists note_b; split_and!; [by left|done..]|].
        intros (n & Hn & Hid & ->). revert Hn Hid.
        rewrite !elem_of_cons, elem_of_nil. by intros [->|[->|[]]].
      * split; [done|]. intros (n & Hn & Hid & ->). revert Hn Hid.
        rewrite !elem_of_cons, elem_of_nil. intros [->|[->|[]]]; simpl; congruence.
Qed.

Lemma handleAddNote_in_sync_witness :
  let st := {| notes := [note_b; note_a]; newNoteTitle := "Later"; newNoteContent := "";
               isOnline := false |} in
  notes_in_sync (notes st) World_two_notes
  ∧ (∀ n, n ∈ notes st → Note.id n ≠ "c")
  ∧ notes_in_sync (Note.mk "c" "Later" "" 3000 false :: [note_b; note_a])
      (handleAddNote st "c" 3000 no_faults World_two_notes).2.
Proof.
  intros st.
  assert (∀ n, n ∈ notes st → Note.id n ≠ "c") as Hfresh.
  { intros n. simpl. rewrite !elem_of_cons, elem_of_nil. by intros [->|[->|[]]]. }
  split_and!; [exact notes_in_sync_two | exact Hfresh |].
  apply (handleAddNote_in_sync st "c" 3000 no_faults World_two_notes
           (handleAddNote st "c" 3000 no_faults World_two_notes).1
           (handleAddNote st "c" 3000 no_faults World_two_notes).2
           notes_in_sync_two Hfresh).
  by destruct (handleAddNote st "c" 3000 no_faults World_two_notes).
Defined.

(** X16.  Deleting keeps screen and store in step: if the note list and the
    [notes] collection hold the same notes, they still do after
    [handleDeleteNote], whether it resolved or rejected. *)
Theorem handleDeleteNote_in_sync st id f w r w' :
  notes_in_sync (notes st) w →
  handleDeleteNote st id f w = (r, w') →
  notes_in_sync (notes (if r is inr st' then st' else st)) w'.
Proof.
  intros [Hnodup Hsync]. rewrite handleDeleteNote_unfold.
  destruct (LocalDatabase.delete _ _ f w) as [[e|[]] w1] eqn:Hdel; intros [= <- <-].
  - split; [done|]. intros k d. rewrite (delete_rejected _ _ _ _ _ _ Hdel). apply Hsync.
  - apply delete_resolved in Hdel as [Hst _]. simpl. split.
    + eapply sublist_NoDup; [exact Hnodup|]. apply fmap_sublist, sublist_filter.
    + intros k d. rewrite Hst. unfold store_delete. rewrite lookup_delete.
      destruct (decide (id = k)) as [<-|Hne].
      * split; [done|]. by intros (n & [Hn _]%list_elem_of_filter & Hid & _).
      * rewrite Hsync. split.
        -- intros (n & Hn & Hid & ->). exists n. split_and!; [|done..].
           apply list_elem_of_filter. split; [congruence|done].
        -- intros (n & [_ Hn]%list_elem_of_filter & Hid & ->). eauto.
Qed.

Lemma handleDeleteNote_in_sync_witness :
  notes_in_sync (notes Notes_two) World_two_notes
  ∧ notes_in_sync [note_b] (handleDeleteNote Notes_two "a" no_faults World_two_notes).2.
Proof.
  split; [exact notes_in_sync_two|].
  apply (handleDeleteNote_in_sync Notes_two "a" no_faults World_two_notes
           (handleDeleteNote Notes_two "a" no_faults World_two_notes).1
           (handleDeleteNote Notes_two "a" no_faults World_two_notes).2
           notes_in_sync_two).
  by destruct (handleDeleteNote Notes_two "a" no_faults World_two_notes).
Defined.

End NoteProperties.

(* ===================================================================== *)
(** * The habit handlers: further properties *)
(* ===================================================================== *)

Section HabitInvariant.

Import App.

Variable P : Habit.t → Prop.
Hypothesis P_created : ∀ uuid name, P (Habit.mk uuid name [] 0).
Hypothesis P_toggled : ∀ today h, P h → P (toggled today h).

Lemma saveHabit_all habit f st r w' :
  habits_all P st → P habit →
  LocalDatabase.saveHabit habit f (world st) = (r, w') →
  ∀ hs, (∀ h, h ∈ hs → P h) → habits_all P {| habits := hs; world := w' |}.
Proof.
  intros (Hwf & _ & Hst) Hok Hsave hs Hhs. unfold LocalDatabase.saveHabit in Hsave.
  split_and!; simpl; [by eapply put_wf | done |].
  intros k d. destruct r as [e|[]].
  - rewrite (put_rejected _ _ _ _ _ _ Hsave). apply Hst.
  - apply put_resolved in Hsave as [-> _]. unfold store_put. rewrite lookup_insert.
    destruct (decide _); [intros [= <-]; eauto | apply Hst].
Qed.

Lemma habits_all_step st st' :
  habits_all P st → step st st' → habits_all P st'.
Proof.
  intros Hall Hstep. pose proof Hall as (Hwf & Hlist & Hst).
  destruct Hstep as [st name uuid f|st habitId today f|st f|st].
  - unfold run, createHabit.
    destruct name as [name|]; [|by destruct st].
    destruct (decide (name = "")); [by destruct st|].
    unfold mbind, M_bind, mret, M_ret.
    destruct (LocalDatabase.saveHabit _ f (world st)) as [[e|[]] w1] eqn:Hsave;
      eapply (saveHabit_all _ _ _ _ _ Hall (P_created uuid name) Hsave); [done|].
    intros h. rewrite elem_of_app, list_elem_of_singleton. intros [Hin| ->]; auto.
  - unfold run, handleToggleHabit, mbind, M_bind, mret, M_ret.
    assert (∀ h, h ∈ newHabits (habits st) habitId today → P h) as Hnew.
    { intros h. unfold newHabits. rewrite list_elem_of_fmap.
      intros (h0 & -> & Hin). destruct (decide _); auto. }
    destruct (List.find _ _) as [u|] eqn:Hfind; [|by split_and!].
    apply find_some in Hfind as [Hin _]. apply list_elem_of_In in Hin.
    destruct (LocalDatabase.saveHabit u f (world st)) as [[e|[]] w1] eqn:Hsave;
      by eapply (saveHabit_all _ _ _ _ _ Hall (Hnew _ Hin) Hsave).
  - unfold run, loadData, mbind, M_bind, mret, M_ret,
      LocalDatabase.getAllNotes, LocalDatabase.getAllHabits.
    destruct (LocalDatabase.init f (world st)) as [[e|[]] w1] eqn:Hi.
    { split_and!; simpl; [by eapply init_wf | done |].
      intros k d. rewrite (init_store_of _ _ _ _ _ Hi). apply Hst. }
    destruct (LocalDatabase.getAll "notes" f w1) as [[e|ns] w2] eqn:Hn.
    { split_and!; simpl; [eapply getAll_wf, Hn; by eapply init_wf | done |].
      intros k d. rewrite (getAll_store_of _ _ _ _ _ _ Hn), (init_store_of _ _ _ _ _ Hi).
      apply Hst. }
    destruct (LocalDatabase.getAll "habits" f w2) as [[e|hs] w3] eqn:Hh.
    { split_and!; simpl;
        [eapply getAll_wf, Hh; eapply getAll_wf, Hn; by eapply init_wf | done |].
      intros k d. rewrite (getAll_store_of _ _ _ _ _ _ Hh),
        (getAll_store_of _ _ _ _ _ _ Hn), (init_store_of _ _ _ _ _ Hi). apply Hst. }
    assert (∀ k d, store_of "habits" w3 !! k = Some d → ∃ h, d = DHabit h ∧ P h) as Hst3.
    { intros k d. rewrite (getAll_store_of _ _ _ _ _ _ Hh),
        (getAll_store_of _ _ _ _ _ _ Hn), (init_store_of _ _ _ _ _ Hi). apply Hst. }
    split_and!; simpl;
      [eapply getAll_wf, Hh; eapply getAll_wf, Hn; by eapply init_wf | | done].
    intros h. unfold fetchedHabits. rewrite list_elem_of_omap.
    intros ([n|h'] & Hin & [= <-]).
    pose proof (getAll_store_of _ _ _ _ _ "habits" Hh) as Hsame.
    apply getAll_resolved in Hh as [-> _].
    apply elem_of_store_getAll in Hin as [k Hk]. rewrite <-Hsame in Hk.
    by destruct (Hst3 _ _ Hk) as (h0 & [= <-] & Hok).
  - unfold reload. split_and!; simpl; [|by intros h ?%elem_of_nil | done].
    destruct Hwf as [Hv Ho Hs Hk]. split; simpl; try done; by intros [? [=]].
Qed.

Lemma habits_all_reachable st :
  reachable st → habits_all P st.
Proof.
  revert st. apply rtc_ind_r.
  - split_and!; simpl; [apply wf_initial | by intros h ?%elem_of_nil |].
    intros k d. unfold store_of; simpl. by rewrite lookup_empty.
  - intros st st' _ Hstep IH. by eapply habits_all_step.
Qed.

End HabitInvariant.

Section HabitFurther.

Import App.

Lemma nextDays_NoDup today days :
  NoDup days → NoDup (nextDays today days).
Proof.
  intros Hnd. destruct (decide (today ∈ days)) as [Hin|Hnotin].
  - rewrite nextDays_present by done. by apply NoDup_filter.
  - rewrite nextDays_absent by done. apply NoDup_app. split_and!; [done| |apply NoDup_singleton].
    intros d Hd ->%list_elem_of_singleton. done.
Qed.

Lemma length_filter_ne (x : string) (l : list string) :
  NoDup l → x ∈ l → S (length (filter (λ d, d ≠ x) l)) = length l.
Proof.
  induction l as [|d l IH]; [by intros _ ?%elem_of_nil|].
  rewrite NoDup_cons, elem_of_cons. intros [Hd Hnd] Hin.
  destruct (decide (d = x)) as [->|Hne].
  - rewrite filter_cons_False by (intros H; by apply H).
    by rewrite filter_ne_absent.
  - rewrite filter_cons_True by done. simpl. f_equal. apply IH; [done|].
    destruct Hin as [->|Hin]; done.
Qed.

(** Two habits of a list without duplicate ids that have the same id are
    the same habit. *)
Lemma habit_of_id (habits : list Habit.t) h1 h2 :
  NoDup (Habit.id <$> habits) → h1 ∈ habits → h2 ∈ habits →
  Habit.id h1 = Habit.id h2 → h1 = h2.
Proof.
  intros Hnd [i Hi]%list_elem_of_lookup [j Hj]%list_elem_of_lookup Hid.
  assert (i = j) as ->; [|congruence].
  eapply NoDup_lookup; [exact Hnd|..]; rewrite list_lookup_fmap.
  - by rewrite Hi.
  - rewrite Hj. simpl. by rewrite Hid.
Qed.

(** X17.  With a name entered, in a well-formed world and with the engine
    refusing nothing, [createHabit] resolves: the new habit, with the
    identifier and the name, no completed day and streak 0, is the last of
    the list, the habits that were there come first unchanged, and the habit
    is stored under its [id]. *)
Theorem createHabit_adds habits name uuid f w :
  name ≠ "" →
  wf w →
  (this_db w = None → open_error f = None) →
  request_error f = None →
  ∃ w',
    createHabit habits (Some name) uuid f w
    = (inr (habits ++ [Habit.mk uuid name [] 0]), w')
    ∧ store_of "habits" w' = <[uuid := DHabit (Habit.mk uuid name [] 0)]> (store_of "habits" w)
    ∧ ∀ c, c ≠ "habits" → store_of c w' = store_of c w.
Proof.
  intros Hname Hwf Hopen Hreq.
  assert ("habits" ∈ collections) as Hc by (unfold collections; repeat constructor).
  destruct (put_resolves "habits" (DHabit (Habit.mk uuid name [] 0)) f w Hwf Hc Hopen Hreq)
    as (w' & Hput & _).
  exists w'. unfold createHabit. rewrite decide_False by done.
  unfold mbind, M_bind, mret, M_ret, LocalDatabase.saveHabit. rewrite Hput.
  split; [done|]. by apply put_resolved in Hput.
Qed.

Lemma createHabit_adds_witness :
  "Read" ≠ "" ∧ wf World_initial
  ∧ ∃ w',
      createHabit [] (Some "Read") "u1" no_faults World_initial
      = (inr ([] ++ [Habit.mk "u1" "Read" [] 0]), w')
      ∧ store_of "habits" w'
        = <["u1" := DHabit (Habit.mk "u1" "Read" [] 0)]> (store_of "habits" World_initial)
      ∧ ∀ c, c ≠ "habits" → store_of c w' = store_of c World_initial.
Proof.
  split_and!; [done | apply wf_initial |].
  apply (createHabit_adds [] "Read" "u1" no_faults World_initial);
    [done | apply wf_initial | reflexivity | reflexivity].
Defined.

(** X18.  Toggling an id no habit of the list has does nothing:
    [handleToggleHabit] resolves with the list it was given and does not
    touch the world, not even to open the database. *)
Theorem toggle_unknown_id habits habitId today f w :
  (∀ h, h ∈ habits → Habit.id h ≠ habitId) →
  handleToggleHabit habits habitId today f w = (inr habits, w).
Proof.
  intros Hnone.
  assert (newHabits habits habitId today = habits) as Hsame.
  { unfold newHabits. rewrite <-(list_fmap_id habits) at 2.
    apply list_fmap_ext. intros i h Hi. rewrite decide_False; [done|].
    apply Hnone. apply list_elem_of_lookup. eauto. }
  unfold handleToggleHabit. rewrite Hsame.
  destruct (List.find _ habits) as [u|] eqn:Hfind; [|done].
  apply find_some in Hfind as [Hin Hid%bool_decide_eq_true].
  by destruct (Hnone u); [apply list_elem_of_In|].
Qed.

Lemma toggle_unknown_id_witness :
  (∀ h, h ∈ [habit_two_days] → Habit.id h ≠ "h2")
  ∧ handleToggleHabit [habit_two_days] "h2" "2024-05-03" no_faults World_initial
    = (inr [habit_two_days], World_initial).
Proof.
  assert (∀ h, h ∈ [habit_two_days] → Habit.id h ≠ "h2") as Hnone.
  { by intros h ->%list_elem_of_singleton. }
  split; [exact Hnone|].
  apply (toggle_unknown_id [habit_two_days] "h2" "2024-05-03" no_faults World_initial Hnone).
Defined.

(** X19.  A toggle flips the day it is given and no other: the day is among
    the completed days of the toggled habit exactly when it was not among
    them before, and every other day is among them exactly when it was. *)
Theorem toggle_flips_today today h :
  (today ∈ Habit.completedDays (toggled today h) ↔ today ∉ Habit.completedDays h)
  ∧ ∀ d, d ≠ today →
         (d ∈ Habit.completedDays (toggled today h) ↔ d ∈ Habit.completedDays h).
Proof.
  simpl. split; [|intros d Hne]; rewrite elem_of_nextDays; tauto.
Qed.

(** X20.  In every state the program reaches, no habit of the list and no
    stored habit has a day twice among its completed days, so that [streak]
    is the number of distinct days the habit was completed on. *)
Theorem reachable_distinct_days st :
  reachable st →
  (∀ h, h ∈ habits st →
        NoDup (Habit.completedDays h) ∧ Habit.streak h = Z.of_nat (distinct_days h))
  ∧ (∀ k d, store_of "habits" (world st) !! k = Some d →
            ∃ h, d = DHabit h ∧ NoDup (Habit.completedDays h)
                 ∧ Habit.streak h = Z.of_nat (distinct_days h)).
Proof.
  intros Hreach.
  assert (∀ h, NoDup (Habit.completedDays h) ∧ streak_ok h →
               NoDup (Habit.completedDays h) ∧ Habit.streak h = Z.of_nat (distinct_days h))
    as Hsize.
  { intros h [Hnd Hok]. split; [done|]. unfold distinct_days.
    by rewrite size_list_to_set. }
  destruct (habits_all_reachable (λ h, NoDup (Habit.completedDays h) ∧ streak_ok h))
    with (st := st) as (_ & Hlist & Hstored); [| |done|].
  { intros uuid name. split; [apply NoDup_nil_2 | done]. }
  { intros today h [Hnd _]. split; [by apply nextDays_NoDup | done]. }
  split; [by auto|].
  intros k d Hk. destruct (Hstored k d Hk) as (h & -> & Hh). exists h.
  split; [done|]. by apply Hsize.
Qed.

Lemma reachable_distinct_days_witness :
  reachable State_session
  ∧ (∀ h, h ∈ habits State_session →
          NoDup (Habit.completedDays h) ∧ Habit.streak h = Z.of_nat (distinct_days h))
  ∧ (∀ k d, store_of "habits" (world State_session) !! k = Some d →
            ∃ h, d = DHabit h ∧ NoDup (Habit.completedDays h)
                 ∧ Habit.streak h = Z.of_nat (distinct_days h)).
Proof.
  split; [apply reachable_State_session|].
  apply (reachable_distinct_days State_session), reachable_State_session.
Defined.

(** X21.  A toggle moves the streak by exactly one: for a habit without a
    day twice among its completed days and whose [streak] is their number,
    toggling a day that was not completed adds one to [streak], and toggling
    a day that was completed takes one from it. *)
Theorem toggle_streak_by_one today h :
  NoDup (Habit.completedDays h) →
  streak_ok h →
  Habit.streak (toggled today h)
  = if decide (today ∈ Habit.completedDays h)
    then (Habit.streak h - 1)%Z else (Habit.streak h + 1)%Z.
Proof.
  intros Hnd Hok. unfold streak_ok in Hok. rewrite Hok. simpl.
  destruct (decide _) as [Hin|Hnotin].
  - rewrite nextDays_present by done.
    pose proof (length_filter_ne today _ Hnd Hin). lia.
  - rewrite nextDays_absent by done. rewrite length_app. simpl. lia.
Qed.

Lemma toggle_streak_by_one_witness :
  NoDup (Habit.completedDays habit_two_days) ∧ streak_ok habit_two_days
  ∧ Habit.streak (toggled "2024-05-02" habit_two_days)
    = if decide ("2024-05-02" ∈ Habit.completedDays habit_two_days)
      then (Habit.streak habit_two_days - 1)%Z else (Habit.streak habit_two_days + 1)%Z.
Proof.
  assert (NoDup (Habit.completedDays habit_two_days)) as Hnd.
  { simpl. apply NoDup_cons. split; [by rewrite list_elem_of_singleton|apply NoDup_singleton]. }
  split_and!; [exact Hnd | reflexivity |].
  apply (toggle_streak_by_one "2024-05-02" habit_two_days Hnd). reflexivity.
Defined.

(** X22.  What is saved is what is shown: when no two habits of the list
    share an [id] and [handleToggleHabit] resolves, the habit with the given
    [id] is replaced in the list, at its position, by its toggled version,
    and that same version is the record stored under the [id]. *)
Theorem toggle_saves_what_it_shows habits habitId today f w hs w' i h :
  NoDup (Habit.id <$> habits) →
  habits !! i = Some h →
  Habit.id h = habitId →
  handleToggleHabit habits habitId today f w = (inr hs, w') →
  hs !! i = Some (toggled today h)
  ∧ store_of "habits" w' !! habitId = Some (DHabit (toggled today h)).
Proof.
  intros Hnd Hi Hid Hrun.
  pose proof (handleToggleHabit_resolved _ _ _ _ _ _ _ Hrun) as ->.
  assert (newHabits habits habitId today !! i = Some (toggled today h)) as Hnew.
  { rewrite newHabits_lookup, Hi. simpl. by rewrite decide_True. }
  split; [done|]. revert Hrun.
  unfold handleToggleHabit, mbind, M_bind, mret, M_ret.
  destruct (List.find _ _) as [u|] eqn:Hfind.
  - apply find_some in Hfind as [Hin Hu%bool_decide_eq_true].
    apply list_elem_of_In in Hin. unfold newHabits in Hin.
    apply list_elem_of_fmap in Hin as (h0 & -> & Hin0).
    assert (h0 = h) as ->.
    { eapply habit_of_id; [exact Hnd | done | by eapply list_elem_of_lookup_2 |].
      rewrite Hid, <-Hu. by destruct (decide _). }
    rewrite decide_True by done. unfold LocalDatabase.saveHabit.
    destruct (LocalDatabase.put _ _ f w) as [[e|[]] w1] eqn:Hput; [by intros [=]|].
    intros [= <-]. apply put_resolved in Hput as [-> _]. unfold store_put. simpl.
    rewrite Hid. apply lookup_insert_eq.
  - assert (In (toggled today h) (newHabits habits habitId today)) as Hin
      by (apply list_elem_of_In; by eapply list_elem_of_lookup_2).
    pose proof (find_none _ _ Hfind _ Hin) as Hno. simpl in Hno.
    by rewrite bool_decide_eq_true_2 in Hno.
Qed.

Lemma toggle_saves_what_it_shows_witness :
  NoDup (Habit.id <$> [habit_two_days])
  ∧ [habit_two_days] !! 0%nat = Some habit_two_days
  ∧ Habit.id habit_two_days = "h1"
  ∧ [toggled "2024-05-03" habit_two_days] !! 0%nat
    = Some (toggled "2024-05-03" habit_two_days)
  ∧ store_of "habits"
      (handleToggleHabit [habit_two_days] "h1" "2024-05-03" no_faults World_initial).2
    !! "h1" = Some (DHabit (toggled "2024-05-03" habit_two_days)).
Proof.
  assert (NoDup (Habit.id <$> [habit_two_days])) as Hnd by apply NoDup_singleton.
  split_and!; [exact Hnd | reflexivity | reflexivity |..];
    apply (toggle_saves_what_it_shows [habit_two_days] "h1" "2024-05-03" no_faults
             World_initial [toggled "2024-05-03" habit_two_days]
             (handleToggleHabit [habit_two_days] "h1" "2024-05-03" no_faults World_initial).2
             0 habit_two_days Hnd);
    solve [reflexivity | by vm_compute].
Defined.

End HabitFurther.

(* ===================================================================== *)
(** * The offline cache proxy: further lemmas *)
(* ===================================================================== *)

Section CacheProxyFurther.

Import SW.

(** A [GET] request that [caches.match] misses has no entry in any cache. *)
Lemma caches_match_miss_entry request caches n :
  method request = "GET" →
  caches_match request caches = None →
  entry n (without_fragment (url request)) caches = None.
Proof.
  unfold caches_match, entry. rewrite !head_None. intros Hget Hnil.
  apply elem_of_nil_inv. intros r. rewrite list_elem_of_omap.
  intros ([n' c] & Hin & Hr). simpl in Hr. destruct (decide _); [|done].
  eapply (elem_of_not_nil r); [|exact Hnil].
  apply list_elem_of_omap. exists (n', c). split; [done|].
  unfold cache_match. simpl. by rewrite decide_True.
Qed.

(** After the [cache.put] that follows a miss, if the cache takes it,
    [caches.match] finds the response put. *)
Lemma caches_match_cache_put request response caches :
  method request = "GET" →
  put_accepted request response = true →
  caches_match request caches = None →
  caches_has CACHE_NAME caches = true →
  caches_match request (cache_put CACHE_NAME request response caches) = Some response.
Proof.
  intros Hget Hacc.
  assert (∀ c, cache_match request c = c !! without_fragment (url request)) as Hcm
    by (intros c; unfold cache_match; by rewrite decide_True).
  unfold caches_match, caches_has, cache_put. rewrite Hacc, head_None, bool_decide_eq_true.
  unfold CacheStorage in *.
  induction caches as [|[n c] caches IH]; [by intros _ ?%elem_of_nil|].
  csimpl. rewrite Hcm.
  destruct (c !! without_fragment (url request)) eqn:Hc; [by intros [=]|]. intros Hnil.
  rewrite elem_of_cons. destruct (decide (n = CACHE_NAME)) as [->|Hne]; simpl.
  - intros _. by rewrite Hcm, lookup_insert_eq.
  - rewrite Hcm, Hc. intros [?|Hin]; [done|]. by apply IH.
Qed.

Lemma caches_match_caches_open request cacheName caches :
  caches_match request (caches_open cacheName caches) = caches_match request caches.
Proof.
  unfold caches_open. destruct (caches_has cacheName caches); [done|].
  unfold caches_match. rewrite omap_app. simpl. unfold cache_match. simpl.
  destruct (decide _); simpl; by rewrite ?lookup_empty, app_nil_r.
Qed.

(** The [fetch] listener never replaces or removes an entry. *)
Lemma on_fetch_keeps_entry net request caches n u r :
  entry n u caches = Some r →
  entry n u (on_fetch net request caches).2 = Some r.
Proof.
  intros Hentry.
  destruct (includes "generativelanguage.googleapis.com" (url request)) eqn:Hapi.
  { unfold on_fetch. by rewrite Hapi. }
  destruct (caches_match request caches) as [r'|] eqn:Hmatch.
  { by rewrite (on_fetch_cached _ _ _ _ Hapi Hmatch). }
  destruct (net request) as [r'|] eqn:Hnet.
  - rewrite (on_fetch_fetched _ _ _ _ Hapi Hmatch Hnet). simpl.
    destruct (bool_decide (method request = "GET")) eqn:Hget; simpl;
      [|by rewrite entry_caches_open].
    apply bool_decide_eq_true in Hget.
    destruct (includes "chrome-extension" _); simpl; [by rewrite entry_caches_open|].
    rewrite entry_cache_put_other, entry_caches_open; [done|].
    intros [= -> ->]. by rewrite (caches_match_miss_entry _ _ _ Hget Hmatch) in Hentry.
  - by rewrite (on_fetch_offline _ _ _ Hapi Hmatch Hnet).
Qed.

Lemma filter_ext_elem {A} (P Q : A → Prop) `{!∀ x, Decision (P x), !∀ x, Decision (Q x)}
    (l : list A) :
  (∀ x, x ∈ l → (P x ↔ Q x)) → filter P l = filter Q l.
Proof.
  induction l as [|x l IH]; [done|]. intros Hext. rewrite !filter_cons.
  rewrite IH by (intros y Hy; apply Hext; by right).
  destruct (decide (P x)) as [HP|HP], (decide (Q x)) as [HQ|HQ]; try done;
    exfalso; apply (Hext x) in HP || apply (Hext x) in HQ; try done; by left.
Qed.

Lemma filter_all {A} (P : A → Prop) `{!∀ x, Decision (P x)} (l : list A) :
  (∀ x, x ∈ l → P x) → filter P l = l.
Proof.
  induction l as [|x l IH]; [done|]. intros Hall.
  rewrite filter_cons_True by (apply Hall; by left).
  rewrite IH; [done|]. intros y Hy. apply Hall. by right.
Qed.

(** [activate] keeps the caches of the current name, in their order, and
    nothing else. *)
Lemma activate_filter caches :
  activate caches = (Some (), filter (λ nc, nc.1 = CACHE_NAME) caches).
Proof.
  unfold activate, mbind, P_bind, read, update. simpl. f_equal.
  assert (∀ names (cs : list (string * gmap string Response)),
            foldl (λ cs cacheName,
                     if decide (cacheName ≠ CACHE_NAME) then caches_delete cacheName cs else cs)
                  cs names
            = filter (λ nc, nc.1 = CACHE_NAME ∨ nc.1 ∉ names) cs) as Hfold.
  { induction names as [|n names IH]; intros cs; simpl.
    - rewrite filter_all; [done|]. intros nc _. right. apply not_elem_of_nil.
    - rewrite IH. destruct (decide (n ≠ CACHE_NAME)) as [Hne|Heq%dec_stable].
      + unfold caches_delete, CacheStorage. rewrite list_filter_filter.
        apply filter_ext_elem. intros nc _. rewrite not_elem_of_cons.
        intuition congruence.
      + apply filter_ext_elem. intros nc _. rewrite not_elem_of_cons.
        destruct (decide (nc.1 = CACHE_NAME)); intuition congruence. }
  unfold CacheStorage in *. rewrite Hfold. apply filter_ext_elem.
  intros nc Hnc. split; [|by left].
  intros [?|Hout]; [done|]. destruct Hout. unfold caches_keys.
  apply list_elem_of_fmap. by exists nc.
Qed.

(** [install], written out over the five assets of the manifest. *)
Lemma install_unfold net caches :
  install net caches =
  match net (Request_of "/"), net (Request_of "/index.html"),
        net (Request_of "/manifest.json"), net (Request_of "https://cdn.tailwindcss.com"),
        net (Request_of "https://fonts.googleapis.com/css2?family=Inter:wght@300;400;500;600;700&display=swap")
  with
  | Some r1, Some r2, Some r3, Some r4, Some r5 =>
      if addAll_accepted r1 && addAll_accepted r2 && addAll_accepted r3
         && addAll_accepted r4 && addAll_accepted r5
      then (Some (),
            cache_put CACHE_NAME (Request_of "https://fonts.googleapis.com/css2?family=Inter:wght@300;400;500;600;700&display=swap") r5
              (cache_put CACHE_NAME (Request_of "https://cdn.tailwindcss.com") r4
                 (cache_put CACHE_NAME (Request_of "/manifest.json") r3
                    (cache_put CACHE_NAME (Request_of "/index.html") r2
                       (cache_put CACHE_NAME (Request_of "/") r1
                          (caches_open CACHE_NAME caches))))))
      else (None, caches_open CACHE_NAME caches)
  | _, _, _, _, _ => (None, caches_open CACHE_NAME caches)
  end.
Proof.
  unfold install, mbind, P_bind, update, rejected. simpl.
  destruct (net (Request_of "/")) as [r1|]; simpl; [|done].
  destruct (net (Request_of "/index.html")) as [r2|]; simpl;
    [|by rewrite andb_false_r].
  destruct (net (Request_of "/manifest.json")) as [r3|]; simpl;
    [|by rewrite !andb_false_r].
  destruct (net (Request_of "https://cdn.tailwindcss.com")) as [r4|]; simpl;
    [|by rewrite !andb_false_r].
  destruct (net (Request_of _)) as [r5|]; simpl; [|by rewrite !andb_false_r].
  rewrite andb_true_r, !andb_assoc. by destruct (_ && _).
Qed.

Lemma asset_not_api u :
  u ∈ ASSETS_TO_CACHE → includes "generativelanguage.googleapis.com" u = false.
Proof.
  unfold ASSETS_TO_CACHE. rewrite !elem_of_cons, elem_of_nil.
  intros [->|[->|[->|[->|[->|[]]]]]]; by vm_compute.
Qed.

(** No URL of the manifest has a fragment. *)
Lemma asset_without_fragment u :
  u ∈ ASSETS_TO_CACHE → without_fragment u = u.
Proof.
  unfold ASSETS_TO_CACHE. rewrite !elem_of_cons, elem_of_nil.
  intros [->|[->|[->|[->|[->|[]]]]]]; by vm_compute.
Qed.

Lemma addAll_accepted_spec r :
  addAll_accepted r = true
  ↔ ok r = true ∧ status r ≠ 206%nat ∧ vary_any r = false.
Proof.
  unfold addAll_accepted. rewrite !andb_true_iff, !negb_true_iff, Nat.eqb_neq. tauto.
Qed.

(** A resolved [install] has fetched every asset with an answer
    [cache.addAll] takes and stored it under its URL; it has changed no other
    entry. *)
Lemma install_resolved net caches caches' :
  install net caches = (Some (), caches') →
  (∀ u, u ∈ ASSETS_TO_CACHE →
        ∃ r, net (Request_of u) = Some r ∧ addAll_accepted r = true
             ∧ entry CACHE_NAME u caches' = Some r)
  ∧ (∀ n u, n ≠ CACHE_NAME ∨ u ∉ ASSETS_TO_CACHE → entry n u caches' = entry n u caches).
Proof.
  rewrite install_unfold.
  destruct (net (Request_of "/")) as [r1|] eqn:H1; [|by intros [=]].
  destruct (net (Request_of "/index.html")) as [r2|] eqn:H2; [|by intros [=]].
  destruct (net (Request_of "/manifest.json")) as [r3|] eqn:H3; [|by intros [=]].
  destruct (net (Request_of "https://cdn.tailwindcss.com")) as [r4|] eqn:H4; [|by intros [=]].
  destruct (net (Request_of "https://fonts.googleapis.com/css2?family=Inter:wght@300;400;500;600;700&display=swap"))
    as [r5|] eqn:H5; [|by intros [=]].
  destruct (addAll_accepted r1) eqn:Hok1; [|by intros [=]].
  destruct (addAll_accepted r2) eqn:Hok2; [|by intros [=]].
  destruct (addAll_accepted r3) eqn:Hok3; [|by intros [=]].
  destruct (addAll_accepted r4) eqn:Hok4; [|by intros [=]].
  destruct (addAll_accepted r5) eqn:Hok5; [|by intros [=]]. simpl. intros [= <-].
  assert (∀ cs, caches_has CACHE_NAME cs = true → ∀ req r,
                caches_has CACHE_NAME (cache_put CACHE_NAME req r cs) = true) as Hhas
    by (intros; by rewrite caches_has_cache_put).
  pose proof (caches_has_open CACHE_NAME caches) as Hopen.
  split.
  - intros u. unfold ASSETS_TO_CACHE. rewrite !elem_of_cons, elem_of_nil.
    intros [->|[->|[->|[->|[->|[]]]]]]; eexists; (split; [eassumption|]); (split; [done|]);
      rewrite ?entry_cache_put_other by (by intros [=]).
    + apply (entry_cache_put CACHE_NAME (Request_of "/"));
        [by apply addAll_put_accepted | done].
    + apply (entry_cache_put CACHE_NAME (Request_of "/index.html"));
        [by apply addAll_put_accepted | auto].
    + apply (entry_cache_put CACHE_NAME (Request_of "/manifest.json"));
        [by apply addAll_put_accepted | auto].
    + apply (entry_cache_put CACHE_NAME (Request_of "https://cdn.tailwindcss.com"));
        [by apply addAll_put_accepted | auto].
    + apply (entry_cache_put CACHE_NAME (Request_of "https://fonts.googleapis.com/css2?family=Inter:wght@300;400;500;600;700&display=swap"));
        [by apply addAll_put_accepted | auto 6].
  - intros n u Hother.
    rewrite !entry_cache_put_other, entry_caches_open; [done|..];
      intros [= -> ->]; destruct Hother as [Hn|Hu]; try done;
      apply Hu; unfold ASSETS_TO_CACHE; rewrite !elem_of_cons; tauto.
Qed.

(** While the worker serves, every asset of the manifest has its entry. *)
Lemma serving_has_asset caches u :
  serving caches → u ∈ ASSETS_TO_CACHE → is_Some (entry CACHE_NAME u caches).
Proof.
  intros Hs Hu. induction Hs as [net caches caches' Hinstall|net request caches _ IH].
  - rewrite entry_activate. apply install_resolved in Hinstall as [Hall _].
    destruct (Hall u Hu) as (r & _ & _ & ->). by eexists.
  - destruct IH as [r Hr]. exists r. by apply on_fetch_keeps_entry.
Qed.

(** X23.  The application works offline: while the installed and activated
    worker serves, a request for any asset of the manifest is answered with
    the cached response, the same whatever the network does or fails to do,
    and the cache storage is left as it was. *)
Theorem assets_served_offline caches u :
  serving caches →
  u ∈ ASSETS_TO_CACHE →
  ∃ r, ∀ net, on_fetch net (Request_of u) caches = (Responded r, caches).
Proof.
  intros Hs Hu.
  destruct (entry_caches_match CACHE_NAME u caches (asset_without_fragment _ Hu)
              (serving_has_asset _ _ Hs Hu)) as [r Hr].
  exists r. intros net. apply on_fetch_cached; [|done]. by apply asset_not_api.
Qed.

Lemma assets_served_offline_witness :
  serving caches_active ∧ "/manifest.json" ∈ ASSETS_TO_CACHE
  ∧ ∃ r, ∀ net, on_fetch net (Request_of "/manifest.json") caches_active
                = (Responded r, caches_active).
Proof.
  assert ("/manifest.json" ∈ ASSETS_TO_CACHE) as Hu
    by (unfold ASSETS_TO_CACHE; repeat constructor).
  split_and!; [apply serving_caches_active | exact Hu |].
  apply (assets_served_offline caches_active "/manifest.json" serving_caches_active Hu).
Defined.

(** X24.  What the cache took once is served from it afterwards: after the
    listener has answered a [GET] request that missed the cache, whose
    [http(s)] URL contains neither the insight-generation host nor
    [chrome-extension], with an answer of the network that is neither
    partial (status 206) nor marked [Vary: *], the same request is answered
    with that response whatever the network does then, offline included, and
    without a further change of the cache storage. *)
Theorem fetched_then_cached net request caches fetchResponse :
  includes "generativelanguage.googleapis.com" (url request) = false →
  method request = "GET" →
  includes "chrome-extension" (url request) = false →
  http_url (url request) = true →
  status fetchResponse ≠ 206%nat →
  vary_any fetchResponse = false →
  caches_match request caches = None →
  net request = Some fetchResponse →
  ∀ net', on_fetch net' request (on_fetch net request caches).2
          = (Responded fetchResponse, (on_fetch net request caches).2).
Proof.
  intros Hapi Hget Hext Hhttp Hstatus Hvary Hmiss Hnet net'.
  rewrite (on_fetch_fetched _ _ _ _ Hapi Hmiss Hnet). simpl.
  rewrite bool_decide_eq_true_2, Hext by done. simpl.
  apply on_fetch_cached; [done|].
  apply caches_match_cache_put; [done| | |apply caches_has_open].
  - unfold put_accepted. rewrite Hhttp, bool_decide_eq_true_2, Hvary by done. simpl.
    rewrite andb_true_r. apply negb_true_iff. by apply Nat.eqb_neq.
  - by rewrite caches_match_caches_open.
Qed.

Lemma fetched_then_cached_witness :
  let request := {| url := "/logo.png"; method := "GET"; mode := "no-cors" |} in
  let fetchResponse := {| status := 200; body := "/logo.png"; vary_any := false |} in
  includes "generativelanguage.googleapis.com" (url request) = false
  ∧ method request = "GET"
  ∧ includes "chrome-extension" (url request) = false
  ∧ http_url (url request) = true
  ∧ status fetchResponse ≠ 206%nat
  ∧ vary_any fetchResponse = false
  ∧ caches_match request caches_active = None
  ∧ net_online request = Some fetchResponse
  ∧ ∀ net', on_fetch net' request (on_fetch net_online request caches_active).2
            = (Responded fetchResponse, (on_fetch net_online request caches_active).2).
Proof.
  intros request fetchResponse.
  split_and!; [by vm_compute | reflexivity | by vm_compute | by vm_compute | by vm_compute
              | reflexivity | by vm_compute | reflexivity |].
  apply (fetched_then_cached net_online request caches_active fetchResponse);
    solve [by vm_compute | reflexivity].
Defined.

(** X25.  Activation leaves exactly one cache generation: [activate]
    resolves, keeps the caches of the current name as they are and deletes
    every other cache, so that afterwards every cache name is the current
    one, the entries of the current cache are the ones it had, no cache of
    another name has an entry, and activating again changes nothing. *)
Theorem activate_keeps_current_only caches :
  activate caches = (Some (), filter (λ nc, nc.1 = CACHE_NAME) caches)
  ∧ (∀ n, n ∈ caches_keys (activate caches).2 → n = CACHE_NAME)
  ∧ (∀ u, entry CACHE_NAME u (activate caches).2 = entry CACHE_NAME u caches)
  ∧ (∀ n u, n ≠ CACHE_NAME → entry n u (activate caches).2 = None)
  ∧ activate (activate caches).2 = (Some (), (activate caches).2).
Proof.
  split; [apply activate_filter|]. rewrite !activate_filter. simpl. split_and!.
  - intros n. unfold caches_keys. rewrite list_elem_of_fmap.
    by intros (nc & -> & [Hn _]%list_elem_of_filter).
  - intros u. by rewrite <-(entry_activate u caches), activate_filter.
  - intros n u Hne. unfold entry. apply head_None, elem_of_nil_inv.
    intros r. rewrite list_elem_of_omap.
    intros ([n' c] & [Hn' _]%list_elem_of_filter & Hr). simpl in *.
    by rewrite decide_False in Hr by congruence.
  - f_equal. unfold CacheStorage. apply filter_all.
    by intros nc [Hn _]%list_elem_of_filter.
Qed.

(** X26.  The listener never replaces or removes what is cached: whatever
    the request and the network, an entry of a cache is still there, with
    the same response, after the [fetch] listener has run. *)
Theorem fetch_never_replaces net request caches n u r :
  entry n u caches = Some r →
  entry n u (on_fetch net request caches).2 = Some r.
Proof. apply on_fetch_keeps_entry. Qed.

Lemma fetch_never_replaces_witness :
  let request := {| url := "/index.html"; method := "POST"; mode := "cors" |} in
  entry CACHE_NAME "/index.html" caches_active
  = Some {| status := 200; body := "/index.html"; vary_any := false |}
  ∧ entry CACHE_NAME "/index.html" (on_fetch net_not_found request caches_active).2
    = Some {| status := 200; body := "/index.html"; vary_any := false |}.
Proof.
  intros request. split; [by vm_compute|].
  apply (fetch_never_replaces net_not_found request caches_active). by vm_compute.
Defined.

(** X27.  Installation is all or nothing: if one asset of the manifest
    cannot be fetched, or is answered with a status outside 200..299,
    [install] rejects and no cache gains or loses an entry (the current
    cache is created empty if it did not exist). *)
Theorem install_all_or_nothing net caches u :
  u ∈ ASSETS_TO_CACHE →
  (net (Request_of u) = None ∨ ∃ r, net (Request_of u) = Some r ∧ ok r = false) →
  install net caches = (None, caches_open CACHE_NAME caches)
  ∧ ∀ n u', entry n u' (install net caches).2 = entry n u' caches.
Proof.
  intros Hu Hfail.
  assert (install net caches = (None, caches_open CACHE_NAME caches)) as Hrej.
  { destruct (install net caches) as [[[]|] caches'] eqn:Hinstall.
    - apply install_resolved in Hinstall as [Hall _].
      destruct (Hall u Hu) as (r & Hr & (Hok & _)%addAll_accepted_spec & _).
      destruct Hfail as [Hnone|(r' & Hr' & Hok')]; congruence.
    - rewrite install_unfold in Hinstall. repeat case_match; by simplify_eq. }
  split; [done|]. intros n u'. rewrite Hrej. apply entry_caches_open.
Qed.

Lemma install_all_or_nothing_witness :
  "https://cdn.tailwindcss.com" ∈ ASSETS_TO_CACHE
  ∧ install net_no_cdn caches_old = (None, caches_open CACHE_NAME caches_old)
  ∧ ∀ n u', entry n u' (install net_no_cdn caches_old).2 = entry n u' caches_old.
Proof.
  assert ("https://cdn.tailwindcss.com" ∈ ASSETS_TO_CACHE) as Hu
    by (unfold ASSETS_TO_CACHE; repeat constructor).
  split; [exact Hu|].
  apply (install_all_or_nothing net_no_cdn caches_old "https://cdn.tailwindcss.com" Hu).
  left. reflexivity.
Defined.

(** X28.  A successful installation stores the manifest: if the network
    answers every asset of the manifest with a status in 200..299 other than
    206 (a partial answer) and without [Vary: *], [install] resolves, the
    current cache then answers for each asset URL with the response fetched
    for it, and no other entry has changed. *)
Theorem install_stores_manifest net caches :
  (∀ u, u ∈ ASSETS_TO_CACHE →
        ∃ r, net (Request_of u) = Some r
             ∧ ok r = true ∧ status r ≠ 206%nat ∧ vary_any r = false) →
  ∃ caches',
    install net caches = (Some (), caches')
    ∧ (∀ u, u ∈ ASSETS_TO_CACHE → entry CACHE_NAME u caches' = net (Request_of u))
    ∧ (∀ n u, n ≠ CACHE_NAME ∨ u ∉ ASSETS_TO_CACHE →
              entry n u caches' = entry n u caches).
Proof.
  intros Hall.
  destruct (install net caches) as [[[]|] caches'] eqn:Hinstall.
  - exists caches'. apply install_resolved in Hinstall as [Hstored Hother].
    split_and!; [done| |done].
    intros u Hu. by destruct (Hstored u Hu) as (r & -> & _ & ->).
  - exfalso. revert Hinstall. rewrite install_unfold.
    assert (∀ u, u ∈ ASSETS_TO_CACHE →
                 ∃ r, net (Request_of u) = Some r ∧ addAll_accepted r = true) as H.
    { intros u Hu. destruct (Hall u Hu) as (r & Hr & Hacc).
      exists r. split; [done|]. by apply addAll_accepted_spec. }
    destruct (H "/") as (r1 & -> & ->); [unfold ASSETS_TO_CACHE; repeat constructor|].
    destruct (H "/index.html") as (r2 & -> & ->); [unfold ASSETS_TO_CACHE; repeat constructor|].
    destruct (H "/manifest.json") as (r3 & -> & ->);
      [unfold ASSETS_TO_CACHE; repeat constructor|].
    destruct (H "https://cdn.tailwindcss.com") as (r4 & -> & ->);
      [unfold ASSETS_TO_CACHE; repeat constructor|].
    destruct (H "https://fonts.googleapis.com/css2?family=Inter:wght@300;400;500;600;700&display=swap")
      as (r5 & -> & ->); [unfold ASSETS_TO_CACHE; repeat constructor|].
    by intros [=].
Qed.

Lemma install_stores_manifest_witness :
  (∀ u, u ∈ ASSETS_TO_CACHE →
        ∃ r, net_online (Request_of u) = Some r
             ∧ ok r = true ∧ status r ≠ 206%nat ∧ vary_any r = false)
  ∧ ∃ caches',
      install net_online caches_old = (Some (), caches')
      ∧ (∀ u, u ∈ ASSETS_TO_CACHE → entry CACHE_NAME u caches' = net_online (Request_of u))
      ∧ (∀ n u, n ≠ CACHE_NAME ∨ u ∉ ASSETS_TO_CACHE →
                entry n u caches' = entry n u caches_old).
Proof.
  assert (∀ u, u ∈ ASSETS_TO_CACHE →
               ∃ r, net_online (Request_of u) = Some r
                    ∧ ok r = true ∧ status r ≠ 206%nat ∧ vary_any r = false) as Hall.
  { intros u _. eexists. split_and!; [reflexivity | reflexivity | by vm_compute | reflexivity]. }
  split; [exact Hall|].
  apply (install_stores_manifest net_online caches_old Hall).
Defined.

(** X29.  Nothing of the insight-generation endpoint enters the cache: if no
    cache holds a response under a URL that contains the host of the
    endpoint, none does after the [fetch] listener has run, whatever the
    request and the network. *)
Theorem fetch_keeps_api_out net request caches :
  api_free caches →
  api_free (on_fetch net request caches).2.
Proof.
  intros Hfree.
  destruct (includes "generativelanguage.googleapis.com" (url request)) eqn:Hapi.
  { unfold on_fetch. by rewrite Hapi. }
  destruct (caches_match request caches) as [r'|] eqn:Hmatch.
  { by rewrite (on_fetch_cached _ _ _ _ Hapi Hmatch). }
  destruct (net request) as [r'|] eqn:Hnet;
    [|by rewrite (on_fetch_offline _ _ _ Hapi Hmatch Hnet)].
  rewrite (on_fetch_fetched _ _ _ _ Hapi Hmatch Hnet). simpl.
  assert (api_free (caches_open CACHE_NAME caches)) as Hopen.
  { unfold caches_open. destruct (caches_has _ _); [done|].
    intros nc u r [Hin| ->%list_elem_of_singleton]%elem_of_app; [by apply Hfree|].
    simpl. by rewrite lookup_empty. }
  destruct (_ && _); [|done].
  intros nc u r. unfold cache_put. destruct (put_accepted _ _); [|by apply Hopen].
  rewrite list_elem_of_fmap.
  intros ([n c] & -> & Hin). simpl. destruct (decide _); simpl; [|by apply (Hopen (n, c))].
  rewrite lookup_insert. destruct (decide (without_fragment (url request) = u)) as [<-|Hne].
  - intros _. destruct (includes _ (without_fragment _)) eqn:Hkey; [|done].
    apply includes_without_fragment in Hkey. congruence.
  - by apply (Hopen (n, c)).
Qed.

Lemma fetch_keeps_api_out_witness :
  let request := {| url := "/logo.png"; method := "GET"; mode := "no-cors" |} in
  api_free caches_active
  ∧ api_free (on_fetch net_online request caches_active).2.
Proof.
  intros request.
  assert (api_free caches_active) as Hfree.
  { intros nc u r ->%list_elem_of_singleton. simpl.
    intros Hu. apply asset_not_api. revert Hu. rewrite !lookup_insert.
    repeat (destruct (decide _) as [<-|?];
            [intros _; unfold ASSETS_TO_CACHE; repeat constructor|]).
    by rewrite lookup_empty. }
  split; [exact Hfree|].
  apply (fetch_keeps_api_out net_online request caches_active Hfree).
Defined.

End CacheProxyFurther.

(* ===================================================================== *)
(** * Durability *)
(* ===================================================================== *)

Section Durability.

Import Notes.

(** X30.  A note that was added survives a restart: once [handleAddNote] has
    resolved for a title that is not blank, then after a page reload, which
    drops the connection and the component state but not the database, the
    note list of a resolved [loadData] contains the note that was added. *)
Theorem added_note_survives_reload st uuid now f w st' w' f' ns hs w'' :
  blank (newNoteTitle st) = false →
  handleAddNote st uuid now f w = (inr st', w') →
  Notes.loadData f' {| this_db := None; engine := engine w' |} = (inr (ns, hs), w'') →
  Note.mk uuid (newNoteTitle st) (newNoteContent st) now (isOnline st) ∈ ns.
Proof.
  intros Hb Hadd Hload. revert Hadd. rewrite handleAddNote_unfold, Hb. simpl.
  destruct (LocalDatabase.put _ _ f w) as [[e|[]] w1] eqn:Hput; [by intros [=]|].
  intros [= _ <-]. apply put_resolved in Hput as [Hst _].
  apply loadData_resolved in Hload as (-> & _).
  rewrite Array_sort_Permutation. apply elem_of_fetchedNotes, elem_of_store_getAll.
  exists uuid. change (store_of "notes" w1 !! uuid = Some (DNote (Note.mk uuid
    (newNoteTitle st) (newNoteContent st) now (isOnline st)))).
  rewrite Hst. apply lookup_insert_eq.
Qed.

Lemma added_note_survives_reload_witness :
  blank (newNoteTitle Notes_typed) = false
  ∧ Note.mk "u1" " Monday " "Slept well" 1000 true
    ∈ [Note.mk "u1" " Monday " "Slept well" 1000 true].
Proof.
  split; [reflexivity|].
  eapply (added_note_survives_reload Notes_typed "u1" 1000 no_faults World_initial
            _ _ no_faults _ []);
    [reflexivity | by vm_compute | by vm_compute].
Defined.

End Durability.
